(** * Recording capture and local storage: a shallow embedding

    The development follows the two source modules of the repository:

    - [IndexedDB]: the recording store of [frontend/lib/indexeddb.ts]
      (the version with [duration], [name] and [updateRecordingMeta]);
    - [ScreenRecorder]: the capture controller of the [ScreenRecorder]
      component (the version that passes a duration to [saveVideo]).

    The object store of the browser is a finite map from string keys to
    stored values; platform behaviour the code cannot influence (whether a
    transaction commits, the wall clock, the locale dependent default name,
    which streams the user grants) is an explicit argument of each
    operation. *)

From Stdlib Require Import ZArith Lia Ascii DecimalString DecimalZ.
From stdpp Require Import base option list gmap strings sorting.

Local Open Scope string_scope.

Module IndexedDB.

(** ** Data model *)

(** A [Blob]: its bytes and its MIME type. [blob.size] is the byte length. *)
Record Blob := mkBlob { blob_bytes : list Byte.byte; blob_type : string }.

Definition blob_size (b : Blob) : Z := Z.of_nat (length (blob_bytes b)).

(** [interface RecordingMeta]. Numbers are integers here: [Date.now()],
    a count of seconds and a byte length. *)
Record RecordingMeta := mkMeta {
  meta_id : string;
  meta_name : string;
  meta_timestamp : Z;
  meta_duration : Z;
  meta_size : Z
}.

Definition set_name (n : string) (m : RecordingMeta) : RecordingMeta :=
  {| meta_id := meta_id m; meta_name := n; meta_timestamp := meta_timestamp m;
     meta_duration := meta_duration m; meta_size := meta_size m |}.

(** What one key of the object store can hold. The store is untyped:
    [saveVideo] puts a [Blob] under [id] and a metadata object under the
    derived key, and [updateRecordingMeta] puts back the spread of whatever
    it read. Spreading a [Blob] copies no property, so the result is an
    object that has at most a [name]: [VObj]. *)
Inductive value :=
  | VBlob (b : Blob)
  | VMeta (m : RecordingMeta)
  | VObj (n : option string).

Abbreviation Store := (gmap string value).

(** How the platform treats one call: the database opens and the
    transaction commits, [indexedDB.open] fails, or a request of the
    transaction fails (the transaction is then rolled back). *)
Inductive idb_outcome := IdbOk | IdbOpenError | IdbRequestError.

(** The settled state of the promise an operation returns. *)
Inductive promise (A : Type) :=
  | Resolved (a : A)
  | Rejected.
Arguments Resolved {A} a.
Arguments Rejected {A}.

(** ** Keys *)

(** The template literal [`${id}-meta`]. *)
Definition metaKey (id : string) : string := id +:+ "-meta".

(** [k.endsWith(suffix)]: [suffix] is [k] itself or ends the tail of [k]. *)
Fixpoint endsWith (k suffix : string) : bool :=
  if String.eqb k suffix then true
  else match k with
       | EmptyString => false
       | String _ k' => endsWith k' suffix
       end.

(** [store.getAllKeys()]: every key, in the ascending key order of the
    object store (strings compare unit by unit). *)
Definition getAllKeys (st : Store) : list string :=
  merge_sort String.le (map_to_list st).*1.

(** ** [Array.prototype.sort] *)

(** Reading [.timestamp]: [None] stands for [undefined]. *)
Definition timestamp_of (v : value) : option Z :=
  match v with
  | VMeta m => Some (meta_timestamp m)
  | VBlob _ | VObj _ => None
  end.

(** The comparator [(a, b) => b.timestamp - a.timestamp]; [None] is [NaN],
    which the subtraction yields as soon as one side is [undefined]. *)
Definition compareFn (a b : value) : option Z :=
  match timestamp_of b, timestamp_of a with
  | Some tb, Some ta => Some (tb - ta)%Z
  | _, _ => None
  end.

(** The sort reads a [NaN] from the comparator as [+0]. *)
Definition SortCompare (a b : value) : Z := default 0%Z (compareFn a b).

Section Sort.
Context {A : Type} (cmp : A → A → Z).

(** [x] stood before every element of [l]: it stays before the first
    element it does not compare greater than, which keeps ties in
    their original order. *)
Fixpoint sort_insert (x : A) (l : list A) : list A :=
  match l with
  | [] => [x]
  | y :: l' => if (cmp x y <=? 0)%Z then x :: y :: l' else y :: sort_insert x l'
  end.

(** A stable sort by [cmp], as [Array.prototype.sort] is. Where [cmp]
    is not a consistent order the language leaves the result to the
    engine; what is proved below about such a listing speaks of its
    entries only, or of every order of them. *)
Definition array_sort (l : list A) : list A := foldr sort_insert [] l.
End Sort.

(** ** Operations *)

(** [name || generateDefaultName()]: an absent or empty name is falsy. *)
Definition name_or_default (name : option string) (defaultName : string) : string :=
  match name with
  | None | Some "" => defaultName
  | Some n => n
  end.

(** [saveVideo(id, blob, duration, name?)]. [now] is [Date.now()] and
    [defaultName] what [generateDefaultName()] returns at the call. *)
Definition saveVideo (env : idb_outcome) (now : Z) (defaultName : string)
    (id : string) (blob : Blob) (duration : Z) (name : option string)
    (st : Store) : promise RecordingMeta * Store :=
  match env with
  | IdbOpenError => (Rejected, st)
  | IdbRequestError => (Rejected, st)
  | IdbOk =>
      let meta := {| meta_id := id;
                     meta_name := name_or_default name defaultName;
                     meta_timestamp := now;
                     meta_duration := duration;
                     meta_size := blob_size blob |} in
      (Resolved meta, <[metaKey id := VMeta meta]> (<[id := VBlob blob]> st))
  end.

(** [Partial<Pick<RecordingMeta, 'name'>>]. *)
Record MetaUpdates := mkUpdates { upd_name : option string }.

(** [{ ...existingMeta, ...updates }]. *)
Definition spread (existing : value) (updates : MetaUpdates) : value :=
  match existing with
  | VMeta m => VMeta (match upd_name updates with
                      | Some n => set_name n m
                      | None => m
                      end)
  | VBlob _ => VObj (upd_name updates)
  | VObj n => VObj (match upd_name updates with
                    | Some n' => Some n'
                    | None => n
                    end)
  end.

(** [updateRecordingMeta(id, updates)]. Every stored value is an object,
    so [!existingMeta] holds exactly when the key is absent. *)
Definition updateRecordingMeta (env : idb_outcome) (id : string)
    (updates : MetaUpdates) (st : Store) : promise (option value) * Store :=
  match env with
  | IdbOpenError => (Rejected, st)
  | IdbRequestError => (Rejected, st)
  | IdbOk =>
      match st !! metaKey id with
      | None => (Resolved None, st)
      | Some existingMeta =>
          let updatedMeta := spread existingMeta updates in
          (Resolved (Some updatedMeta), <[metaKey id := updatedMeta]> st)
      end
  end.

(** [getVideo(id)]: [request.result || null]. *)
Definition getVideo (env : idb_outcome) (id : string) (st : Store)
    : promise (option value) :=
  match env with
  | IdbOk => Resolved (st !! id)
  | _ => Rejected
  end.

(** The values [getAllRecordings] resolves before it sorts them: the keys
    that end with ["-meta"], each looked up in the same transaction. *)
Definition metaValues (st : Store) : list value :=
  omap (λ key, st !! key) (filter (λ k, endsWith k "-meta" = true) (getAllKeys st)).

(** [getAllRecordings()]. *)
Definition getAllRecordings (env : idb_outcome) (st : Store) : promise (list value) :=
  match env with
  | IdbOk => Resolved (array_sort SortCompare (metaValues st))
  | _ => Rejected
  end.

(** [deleteVideo(id)]. *)
Definition deleteVideo (env : idb_outcome) (id : string) (st : Store)
    : promise unit * Store :=
  match env with
  | IdbOk => (Resolved tt, delete (metaKey id) (delete id st))
  | _ => (Rejected, st)
  end.

(** ** Reachable stores *)

(** One call of a writing operation, with everything it is given. *)
Inductive op :=
  | OpSave (env : idb_outcome) (now : Z) (defaultName : string) (id : string)
           (blob : Blob) (duration : Z) (name : option string)
  | OpUpdate (env : idb_outcome) (id : string) (updates : MetaUpdates)
  | OpDelete (env : idb_outcome) (id : string).

Definition op_id (o : op) : string :=
  match o with
  | OpSave _ _ _ id _ _ _ => id
  | OpUpdate _ id _ => id
  | OpDelete _ id => id
  end.

Definition run_op (o : op) (st : Store) : Store :=
  match o with
  | OpSave env now dflt id blob duration name =>
      (saveVideo env now dflt id blob duration name st).2
  | OpUpdate env id updates => (updateRecordingMeta env id updates st).2
  | OpDelete env id => (deleteVideo env id st).2
  end.

(** The stores that calls whose ids satisfy [P] produce from the empty
    object store that [openDB] creates. *)
Inductive reachable_with (P : string → Prop) : Store → Prop :=
  | reach_empty : reachable_with P ∅
  | reach_step o st :
      reachable_with P st → P (op_id o) → reachable_with P (run_op o st).

Definition reachable : Store → Prop := reachable_with (λ _, True).

(** The ids the application passes: none ends with the metadata suffix
    ([generateRecordingId] returns ["recording-"] and digits). *)
Definition plain_id (id : string) : Prop := endsWith id "-meta" = false.

Definition has_payload (st : Store) (id : string) : Prop :=
  ∃ b, st !! id = Some (VBlob b).

Definition has_meta (st : Store) (id : string) : Prop :=
  ∃ m, st !! metaKey id = Some (VMeta m).

(** The pairing invariant: a payload under [id] exactly when a metadata
    record under the derived key. *)
Definition paired (st : Store) : Prop :=
  ∀ id, has_payload st id ↔ has_meta st id.

(** A metadata record sits under the key derived from its own id. *)
Definition well_keyed (st : Store) : Prop :=
  ∀ k m, st !! k = Some (VMeta m) → k = metaKey (meta_id m).

(** With plain ids a key holds a payload or a metadata record according
    to its shape, and each comes with its twin. *)
Record plain_store (st : Store) : Prop := {
  plain_blob k b : st !! k = Some (VBlob b) → plain_id k ∧ has_meta st k;
  plain_meta k m :
    st !! k = Some (VMeta m) → ∃ id, k = metaKey id ∧ plain_id id ∧ has_payload st id;
  plain_obj k n : st !! k ≠ Some (VObj n)
}.

(** ** Orderings *)

(** On [l] the comparator is the difference of a key, second minus first. *)
Definition keyed {A : Type} (cmp : A → A → Z) (key : A → Z) (l : list A) : Prop :=
  ∀ x y, x ∈ l → y ∈ l → cmp x y = (key y - key x)%Z.

Definition descending {A : Type} (key : A → Z) : relation A :=
  λ x y, (key y ≤ key x)%Z.

Definition is_meta (v : value) : bool :=
  match v with VMeta _ => true | VBlob _ | VObj _ => false end.

(** The timestamp of an entry, [0] where there is none. *)
Definition timestamp_or_0 (v : value) : Z := default 0%Z (timestamp_of v).

(** [a] and [b] are metadata records and [a] is strictly newer. *)
Definition newer (a b : value) : Prop :=
  ∃ ma mb, a = VMeta ma ∧ b = VMeta mb ∧ (meta_timestamp mb < meta_timestamp ma)%Z.

(** Every key that ends with the suffix holds a metadata record. *)
Definition metadata_under_suffix (st : Store) : Prop :=
  map_Forall (λ k v, endsWith k "-meta" = true → is_meta v = true) st.

(** ** Renaming in a listing *)

(** The entry of a listing after the record of [id] got the name [n]:
    that record with the new name, any other entry as it was. *)
Definition rename_entry (id n : string) (v : value) : value :=
  match v with
  | VMeta m => if decide (meta_id m = id) then VMeta (set_name n m) else v
  | VBlob _ | VObj _ => v
  end.

End IndexedDB.

Module ScreenRecorder.
Import IndexedDB.

(** ** Platform objects *)

(** [const MAX_RECORDING_DURATION = 3 * 60 * 1000], in milliseconds. *)
Definition MAX_RECORDING_DURATION : Z := 3 * 60 * 1000.

Inductive TrackKind := VideoTrack | AudioTrack.

(** A track of a stream; [track.stop()] ends it. *)
Record MediaStreamTrack := mkTrack { track_kind : TrackKind; track_live : bool }.

Abbreviation MediaStream := (list MediaStreamTrack).

Definition is_video (t : MediaStreamTrack) : bool :=
  match track_kind t with VideoTrack => true | AudioTrack => false end.

Definition getVideoTracks (s : MediaStream) : MediaStream := List.filter is_video s.

(** [stream.getTracks().forEach(track => track.stop())]. *)
Definition stop_tracks (s : MediaStream) : MediaStream :=
  (λ t, mkTrack (track_kind t) false) <$> s.

Definition all_stopped (s : MediaStream) : bool :=
  forallb (λ t, negb (track_live t)) s.

(** The audio graph that mixes screen and microphone audio. *)
Record AudioContext := mkAudioContext { ctx_closed : bool }.

Inductive RecordingState := inactive | recording.

(** The [MediaRecorder] of a session together with what its [onstop]
    closure holds: the [mimeType] chosen at start and the [recordingTime]
    constant of the render whose [startRecording] created the handler. The
    stream it records shares its tracks with the screen stream and is not
    read again, so it is not kept. *)
Record MediaRecorder := mkRecorder {
  rec_state : RecordingState;
  rec_stop_queued : bool;
  rec_mimeType : string;
  onstop_recordingTime : Z
}.

(** Timers of the window. Every interval of the component runs
    [setRecordingTime(prev => prev + 1)]; every timeout runs the auto-stop
    check, which reads [mediaRecorderRef.current] when it fires. *)
Inductive TimerKind := TickInterval | AutoStopTimeout.

Record Timer := mkTimer { timer_id : positive; timer_kind : TimerKind; timer_due : Z }.

(** ** The component *)

Record Component := mkComponent {
  (* useState *)
  isRecording : bool;
  recordings : list value;
  selectedRecording : option string;
  videoUrl : option Blob;
  error : option string;
  recordingTime : Z;
  includeMic : bool;
  (* useRef *)
  mediaRecorderRef : option MediaRecorder;
  streamRef : option MediaStream;
  micStreamRef : option MediaStream;
  audioContextRef : option AudioContext;
  chunksRef : list Blob;
  timerRef : option positive;
  autoStopTimerRef : option positive;
  currentRecordingIdRef : option string;
  (* the window: its clock in milliseconds, its timers in the order they
     were set, the next timer id, and the object store *)
  clock : Z;
  timers : list Timer;
  next_timer : positive;
  db : Store
}.

Definition mounted (st : Store) : Component :=
  {| isRecording := false; recordings := []; selectedRecording := None;
     videoUrl := None; error := None; recordingTime := 0; includeMic := true;
     mediaRecorderRef := None; streamRef := None; micStreamRef := None;
     audioContextRef := None; chunksRef := []; timerRef := None;
     autoStopTimerRef := None; currentRecordingIdRef := None;
     clock := 0; timers := []; next_timer := 1; db := st |}.

Section Setters.
Variable c : Component.

Definition set_isRecording (v : bool) : Component :=
  mkComponent v (recordings c) (selectedRecording c) (videoUrl c) (error c)
    (recordingTime c) (includeMic c) (mediaRecorderRef c) (streamRef c)
    (micStreamRef c) (audioContextRef c) (chunksRef c) (timerRef c)
    (autoStopTimerRef c) (currentRecordingIdRef c) (clock c) (timers c)
    (next_timer c) (db c).

Definition set_recordings (v : list value) : Component :=
  mkComponent (isRecording c) v (selectedRecording c) (videoUrl c) (error c)
    (recordingTime c) (includeMic c) (mediaRecorderRef c) (streamRef c)
    (micStreamRef c) (audioContextRef c) (chunksRef c) (timerRef c)
    (autoStopTimerRef c) (currentRecordingIdRef c) (clock c) (timers c)
    (next_timer c) (db c).

Definition set_playing (sel : option string) (url : option Blob) : Component :=
  mkComponent (isRecording c) (recordings c) sel url (error c)
    (recordingTime c) (includeMic c) (mediaRecorderRef c) (streamRef c)
    (micStreamRef c) (audioContextRef c) (chunksRef c) (timerRef c)
    (autoStopTimerRef c) (currentRecordingIdRef c) (clock c) (timers c)
    (next_timer c) (db c).

Definition set_error (v : option string) : Component :=
  mkComponent (isRecording c) (recordings c) (selectedRecording c) (videoUrl c) v
    (recordingTime c) (includeMic c) (mediaRecorderRef c) (streamRef c)
    (micStreamRef c) (audioContextRef c) (chunksRef c) (timerRef c)
    (autoStopTimerRef c) (currentRecordingIdRef c) (clock c) (timers c)
    (next_timer c) (db c).

Definition set_recordingTime (v : Z) : Component :=
  mkComponent (isRecording c) (recordings c) (selectedRecording c) (videoUrl c)
    (error c) v (includeMic c) (mediaRecorderRef c) (streamRef c)
    (micStreamRef c) (audioContextRef c) (chunksRef c) (timerRef c)
    (autoStopTimerRef c) (currentRecordingIdRef c) (clock c) (timers c)
    (next_timer c) (db c).

Definition set_mediaRecorderRef (v : option MediaRecorder) : Component :=
  mkComponent (isRecording c) (recordings c) (selectedRecording c) (videoUrl c)
    (error c) (recordingTime c) (includeMic c) v (streamRef c)
    (micStreamRef c) (audioContextRef c) (chunksRef c) (timerRef c)
    (autoStopTimerRef c) (currentRecordingIdRef c) (clock c) (timers c)
    (next_timer c) (db c).

Definition set_streamRef (v : option MediaStream) : Component :=
  mkComponent (isRecording c) (recordings c) (selectedRecording c) (videoUrl c)
    (error c) (recordingTime c) (includeMic c) (mediaRecorderRef c) v
    (micStreamRef c) (audioContextRef c) (chunksRef c) (timerRef c)
    (autoStopTimerRef c) (currentRecordingIdRef c) (clock c) (timers c)
    (next_timer c) (db c).

Definition set_micStreamRef (v : option MediaStream) : Component :=
  mkComponent (isRecording c) (recordings c) (selectedRecording c) (videoUrl c)
    (error c) (recordingTime c) (includeMic c) (mediaRecorderRef c) (streamRef c)
    v (audioContextRef c) (chunksRef c) (timerRef c)
    (autoStopTimerRef c) (currentRecordingIdRef c) (clock c) (timers c)
    (next_timer c) (db c).

Definition set_audioContextRef (v : option AudioContext) : Component :=
  mkComponent (isRecording c) (recordings c) (selectedRecording c) (videoUrl c)
    (error c) (recordingTime c) (includeMic c) (mediaRecorderRef c) (streamRef c)
    (micStreamRef c) v (chunksRef c) (timerRef c)
    (autoStopTimerRef c) (currentRecordingIdRef c) (clock c) (timers c)
    (next_timer c) (db c).

Definition set_chunksRef (v : list Blob) : Component :=
  mkComponent (isRecording c) (recordings c) (selectedRecording c) (videoUrl c)
    (error c) (recordingTime c) (includeMic c) (mediaRecorderRef c) (streamRef c)
    (micStreamRef c) (audioContextRef c) v (timerRef c)
    (autoStopTimerRef c) (currentRecordingIdRef c) (clock c) (timers c)
    (next_timer c) (db c).

Definition set_timerRef (v : option positive) : Component :=
  mkComponent (isRecording c) (recordings c) (selectedRecording c) (videoUrl c)
    (error c) (recordingTime c) (includeMic c) (mediaRecorderRef c) (streamRef c)
    (micStreamRef c) (audioContextRef c) (chunksRef c) v
    (autoStopTimerRef c) (currentRecordingIdRef c) (clock c) (timers c)
    (next_timer c) (db c).

Definition set_autoStopTimerRef (v : option positive) : Component :=
  mkComponent (isRecording c) (recordings c) (selectedRecording c) (videoUrl c)
    (error c) (recordingTime c) (includeMic c) (mediaRecorderRef c) (streamRef c)
    (micStreamRef c) (audioContextRef c) (chunksRef c) (timerRef c)
    v (currentRecordingIdRef c) (clock c) (timers c)
    (next_timer c) (db c).

Definition set_currentRecordingIdRef (v : option string) : Component :=
  mkComponent (isRecording c) (recordings c) (selectedRecording c) (videoUrl c)
    (error c) (recordingTime c) (includeMic c) (mediaRecorderRef c) (streamRef c)
    (micStreamRef c) (audioContextRef c) (chunksRef c) (timerRef c)
    (autoStopTimerRef c) v (clock c) (timers c)
    (next_timer c) (db c).

(** The window after time moved to [now] and its timer table became [ts]. *)
Definition set_window (now : Z) (ts : list Timer) (next : positive) : Component :=
  mkComponent (isRecording c) (recordings c) (selectedRecording c) (videoUrl c)
    (error c) (recordingTime c) (includeMic c) (mediaRecorderRef c) (streamRef c)
    (micStreamRef c) (audioContextRef c) (chunksRef c) (timerRef c)
    (autoStopTimerRef c) (currentRecordingIdRef c) now ts next (db c).

Definition set_db (v : Store) : Component :=
  mkComponent (isRecording c) (recordings c) (selectedRecording c) (videoUrl c)
    (error c) (recordingTime c) (includeMic c) (mediaRecorderRef c) (streamRef c)
    (micStreamRef c) (audioContextRef c) (chunksRef c) (timerRef c)
    (autoStopTimerRef c) (currentRecordingIdRef c) (clock c) (timers c)
    (next_timer c) v.
End Setters.

(** ** Timers *)

(** [setInterval(cb, 1000)] and [setTimeout(cb, ms)]: a new entry at the
    end of the timer table, under a fresh id. *)
Definition set_timer (k : TimerKind) (ms : Z) (c : Component) : positive * Component :=
  (next_timer c,
   set_window c (clock c)
     (timers c ++ [mkTimer (next_timer c) k (clock c + ms)])
     (Pos.succ (next_timer c))).

(** [clearInterval(id)] and [clearTimeout(id)]. *)
Definition clear_timer (i : positive) (c : Component) : Component :=
  set_window c (clock c)
    (List.filter (λ t, negb (Pos.eqb (timer_id t) i)) (timers c))
    (next_timer c).

(** [if (ref.current) clear(ref.current)]; an id is a positive number. *)
Definition clear_if_set (r : option positive) (c : Component) : Component :=
  match r with
  | Some i => clear_timer i c
  | None => c
  end.

(** ** Stopping *)

(** [recorder.stop()] on a recording recorder: it becomes inactive and its
    [stop] event is queued. *)
Definition stop (r : MediaRecorder) : MediaRecorder :=
  mkRecorder inactive true (rec_mimeType r) (onstop_recordingTime r).

(** The body shared by [stopRecording], the [onended] handler of the
    screen track and the auto-stop timeout:
    [if (mediaRecorderRef.current?.state === 'recording')
       mediaRecorderRef.current.stop()]. *)
Definition stop_if_recording (c : Component) : Component :=
  match mediaRecorderRef c with
  | Some r =>
      match rec_state r with
      | recording => set_mediaRecorderRef c (Some (stop r))
      | inactive => c
      end
  | None => c
  end.

Definition stopRecording : Component → Component := stop_if_recording.

Definition onended : Component → Component := stop_if_recording.

(** ** The passage of time *)

(** The callback of a timer that fires. *)
Definition fire (c : Component) (t : Timer) : Component :=
  match timer_kind t with
  | TickInterval => set_recordingTime c (recordingTime c + 1)
  | AutoStopTimeout => stop_if_recording c
  end.

(** What a timer leaves in the table once the instant [now] is over: an
    interval that fired is due again a second later, a timeout that fired
    is gone. *)
Definition rearm (now : Z) (t : Timer) : option Timer :=
  if (timer_due t =? now)%Z then
    match timer_kind t with
    | TickInterval => Some (mkTimer (timer_id t) TickInterval (now + 1000))
    | AutoStopTimeout => None
    end
  else Some t.

(** One millisecond passes: the timers due at the new instant fire in the
    order they were set. *)
Definition advance1 (c : Component) : Component :=
  let now := (clock c + 1)%Z in
  let due := List.filter (λ t, (timer_due t =? now)%Z) (timers c) in
  foldl fire (set_window c now (omap (rearm now) (timers c)) (next_timer c)) due.

(** [ms] milliseconds pass with no other event. *)
Definition elapse (ms : Z) (c : Component) : Component :=
  Nat.iter (Z.to_nat ms) advance1 c.

(** ** [startRecording] *)

(** What the platform answers during one call of [startRecording]. *)
Record Acquisition := mkAcquisition {
  acq_now : Z;                          (* Date.now() *)
  acq_display : option MediaStream;     (* getDisplayMedia; None: it rejects *)
  acq_mic : option MediaStream;         (* getUserMedia; None: it rejects *)
  acq_isTypeSupported : string → bool;  (* MediaRecorder.isTypeSupported *)
  acq_message : string                  (* the message of the error thrown *)
}.

(** [generateRecordingId()]. *)
Definition generateRecordingId (now : Z) : string :=
  "recording-" +:+ NilEmpty.string_of_int (Z.to_int now).

(** No character of [s] is [ch]. *)
Fixpoint lacks (ch : Ascii.ascii) (s : string) : bool :=
  match s with
  | EmptyString => true
  | String x s' => negb (Ascii.eqb x ch) && lacks ch s'
  end.

Definition select_mimeType (isTypeSupported : string → bool) : string :=
  if isTypeSupported "video/webm;codecs=vp9" then "video/webm;codecs=vp9"
  else if isTypeSupported "video/webm" then "video/webm"
  else "video/mp4".

(** The [try] block of the microphone: on success both refs are set. *)
Definition acquire_mic (a : Acquisition) (c : Component) : Component :=
  if includeMic c then
    match acq_mic a with
    | Some micStream =>
        set_audioContextRef (set_micStreamRef c (Some micStream))
          (Some (mkAudioContext false))
    | None => c
    end
  else c.

(** [startRecording], run to its end. The answers of the platform are in
    [a]; the [recordingTime] the new [onstop] handler will read is the one
    of the render this [startRecording] belongs to. *)
Definition startRecording (a : Acquisition) (c : Component) : Component :=
  let c := set_error c None in
  let c := set_chunksRef c [] in
  let c := set_currentRecordingIdRef c (Some (generateRecordingId (acq_now a))) in
  match acq_display a with
  | None => set_error c (Some (acq_message a))
  | Some screenStream =>
      let c := set_streamRef c (Some screenStream) in
      let c := acquire_mic a c in
      let mimeType := select_mimeType (acq_isTypeSupported a) in
      if negb (acq_isTypeSupported a mimeType) then
        (* new MediaRecorder throws NotSupportedError *)
        set_error c (Some (acq_message a))
      else
        let mediaRecorder := mkRecorder inactive false mimeType (recordingTime c) in
        let c := set_mediaRecorderRef c (Some mediaRecorder) in
        match getVideoTracks screenStream with
        | [] =>
            (* getVideoTracks()[0] is undefined: a TypeError *)
            set_error c (Some (acq_message a))
        | _ :: _ =>
            (* mediaRecorder.start(1000) *)
            let c := set_mediaRecorderRef c
                       (Some (mkRecorder recording false mimeType (recordingTime c))) in
            let c := set_isRecording c true in
            let '(i, c) := set_timer TickInterval 1000 c in
            let c := set_timerRef c (Some i) in
            let '(j, c) := set_timer AutoStopTimeout MAX_RECORDING_DURATION c in
            set_autoStopTimerRef c (Some j)
        end
  end.

(** [mediaRecorder.ondataavailable]. *)
Definition ondataavailable (data : Blob) (c : Component) : Component :=
  if (0 <? blob_size data)%Z then set_chunksRef c (chunksRef c ++ [data]) else c.

(** ** [mediaRecorder.onstop] *)

(** [loadRecordings()]: a failure is logged and swallowed. *)
Definition loadRecordings (env : idb_outcome) (c : Component) : Component :=
  match getAllRecordings env (db c) with
  | Resolved allRecordings => set_recordings c allRecordings
  | Rejected => c
  end.

(** [playRecording(id)]: [URL.createObjectURL] accepts a [Blob] only;
    any failure ends in [setError('Failed to load recording')]. *)
Definition playRecording (env : idb_outcome) (id : string) (c : Component) : Component :=
  match getVideo env id (db c) with
  | Resolved (Some (VBlob blob)) => set_playing c (Some id) (Some blob)
  | Resolved None => c
  | Resolved (Some _) | Rejected => set_error c (Some "Failed to load recording")
  end.

(** The statements after the [if] of [onstop]: the cleanup. *)
Definition cleanup (c : Component) : Component :=
  let c := set_streamRef c (stop_tracks <$> streamRef c) in
  let c := set_micStreamRef c (stop_tracks <$> micStreamRef c) in
  let c := set_audioContextRef c ((λ _, mkAudioContext true) <$> audioContextRef c) in
  let c := clear_if_set (timerRef c) c in
  let c := clear_if_set (autoStopTimerRef c) c in
  let c := set_isRecording c false in
  set_recordingTime c 0.

(** What the platform answers while one [onstop] handler runs. *)
Record Finalization := mkFinalization {
  fin_save : idb_outcome;
  fin_now : Z;
  fin_defaultName : string;
  fin_list : idb_outcome;
  fin_play : idb_outcome
}.

(** [new Blob(chunksRef.current, { type: mimeType })]. *)
Definition assemble (chunks : list Blob) (mimeType : string) : Blob :=
  mkBlob (concat (blob_bytes <$> chunks)) mimeType.

(** A ref holding a string is truthy unless the string is empty. *)
Definition truthy_id (r : option string) : option string :=
  match r with
  | Some "" | None => None
  | Some id => Some id
  end.

(** The [onstop] handler of recorder [r], an [async] function: a rejected
    [await] ends it at once and rejects the promise it returns. *)
Definition onstop (f : Finalization) (r : MediaRecorder) (c : Component)
    : promise unit * Component :=
  let blob := assemble (chunksRef c) (rec_mimeType r) in
  let duration := onstop_recordingTime r in
  match truthy_id (currentRecordingIdRef c) with
  | Some id =>
      match saveVideo (fin_save f) (fin_now f) (fin_defaultName f)
                      id blob duration None (db c) with
      | (Rejected, _) => (Rejected, c)
      | (Resolved _, st) =>
          let c := set_db c st in
          let c := loadRecordings (fin_list f) c in
          let c := playRecording (fin_play f) id c in
          (Resolved tt, cleanup c)
      end
  | None => (Resolved tt, cleanup c)
  end.

(** The queued [stop] event is delivered to the handler. *)
Definition deliver_stop (f : Finalization) (c : Component) : promise unit * Component :=
  match mediaRecorderRef c with
  | Some r =>
      if rec_stop_queued r then
        onstop f r (set_mediaRecorderRef c
                      (Some (mkRecorder (rec_state r) false (rec_mimeType r)
                                        (onstop_recordingTime r))))
      else (Resolved tt, c)
  | None => (Resolved tt, c)
  end.

(** ** Sessions without a manual stop *)

(** What can reach a recording session besides [stopRecording]: a
    millisecond passes, the recorder delivers a slice, the user ends the
    screen share in the browser. *)
Inductive event :=
  | Millisecond
  | DataAvailable (data : Blob)
  | ScreenShareEnded.

Definition handle (c : Component) (e : event) : Component :=
  match e with
  | Millisecond => advance1 c
  | DataAvailable data => ondataavailable data c
  | ScreenShareEnded => onended c
  end.

Definition run (es : list event) (c : Component) : Component := foldl handle c es.

(** The milliseconds that pass during [es]. *)
Fixpoint elapsed (es : list event) : Z :=
  match es with
  | [] => 0
  | Millisecond :: es' => 1 + elapsed es'
  | _ :: es' => elapsed es'
  end.

(** ** A recording of five seconds *)

(** The user grants screen (video and system audio) and microphone, and
    the runtime supports every container. *)
Definition granted : Acquisition :=
  {| acq_now := 1700000000000;
     acq_display := Some [mkTrack VideoTrack true; mkTrack AudioTrack true];
     acq_mic := Some [mkTrack AudioTrack true];
     acq_isTypeSupported := λ _, true;
     acq_message := "" |}.

(** A freshly mounted component records for five seconds, receives one
    slice, and the user presses stop: the [stop] event is queued. *)
Definition five_seconds : Component :=
  stopRecording
    (ondataavailable (mkBlob [Byte.x1a; Byte.x45; Byte.xdf; Byte.xa3] "video/webm")
       (elapse 5000 (startRecording granted (mounted ∅)))).

(** The platform lets every call of the handler succeed, or refuses the
    save (quota exceeded, say). *)
Definition store_accepts : Finalization :=
  {| fin_save := IdbOk; fin_now := 1700000005000; fin_defaultName := "Recording";
     fin_list := IdbOk; fin_play := IdbOk |}.

Definition store_refuses : Finalization :=
  {| fin_save := IdbRequestError; fin_now := 1700000005000;
     fin_defaultName := "Recording"; fin_list := IdbOk; fin_play := IdbOk |}.

(** ** Observations *)

Inductive Phase := Idle | Recording | Finalizing.

(** [Recording] while the recorder records; [Finalizing] from
    [recorder.stop()] until the [stop] event is handled. *)
Definition phase (c : Component) : Phase :=
  match mediaRecorderRef c with
  | Some r =>
      match rec_state r with
      | recording => Recording
      | inactive => if rec_stop_queued r then Finalizing else Idle
      end
  | None => Idle
  end.

(** The recorder records or its stop event is queued. *)
Definition in_session (c : Component) : Prop :=
  phase c = Recording ∨ phase c = Finalizing.

(** Every stream the session acquired is stopped, the audio graph is
    closed, the two timers of the session are gone from the timer table and
    the elapsed time shows zero. *)
Definition released (c : Component) : Prop :=
  from_option (λ s, all_stopped s = true) True (streamRef c) ∧
  from_option (λ s, all_stopped s = true) True (micStreamRef c) ∧
  from_option (λ a, ctx_closed a = true) True (audioContextRef c) ∧
  (∀ t, t ∈ timers c → Some (timer_id t) ≠ timerRef c) ∧
  (∀ t, t ∈ timers c → Some (timer_id t) ≠ autoStopTimerRef c) ∧
  recordingTime c = 0%Z.

(** What the [onstop] closure of the current recorder holds and the id the
    session saves under. *)
Definition closure_of (c : Component) : option Z * option string :=
  (onstop_recordingTime <$> mediaRecorderRef c, currentRecordingIdRef c).

(** The metadata record the store holds for [id], if any. *)
Definition stored_meta (id : string) (c : Component) : option RecordingMeta :=
  match db c !! metaKey id with
  | Some (VMeta m) => Some m
  | _ => None
  end.

(** ** The other handlers of the component *)

(** [handleDelete(id, e)]: the deletion, then the player is cleared if
    it showed the deleted recording, then the list is loaded again. A
    rejected deletion is logged and nothing else runs. *)
Definition handleDelete (env_delete env_list : idb_outcome) (id : string)
    (c : Component) : Component :=
  match deleteVideo env_delete id (db c) with
  | (Rejected, _) => c
  | (Resolved _, st) =>
      let c := set_db c st in
      let c := if decide (selectedRecording c = Some id)
               then set_playing c None None else c in
      loadRecordings env_list c
  end.

(** The state of the inline rename box: [editingId] and [editingName]. *)
Record Editing := mkEditing { editingId : option string; editingName : string }.

(** [startEditing(rec, e)]. *)
Definition startEditing (rec : RecordingMeta) (e : Editing) : Editing :=
  mkEditing (Some (meta_id rec)) (meta_name rec).

(** [saveRename()]. [trim] is [String.prototype.trim]. Nothing is sent to
    the store when no record is edited or the trimmed name is empty; a
    rejected update is logged; the box closes in every case. *)
Definition saveRename (trim : string → string) (env_update env_list : idb_outcome)
    (e : Editing) (c : Component) : Editing * Component :=
  let closed := mkEditing None (editingName e) in
  match truthy_id (editingId e) with
  | None => (closed, c)
  | Some id =>
      if decide (trim (editingName e) = "") then (closed, c)
      else
        match updateRecordingMeta env_update id
                (mkUpdates (Some (trim (editingName e)))) (db c) with
        | (Rejected, _) => (closed, c)
        | (Resolved _, st) => (closed, loadRecordings env_list (set_db c st))
        end
  end.

(** ** Formatting *)

(** [n.toString()] of an integer, in the range where JavaScript prints
    every digit. *)
Definition toString (n : Z) : string := NilEmpty.string_of_int (Z.to_int n).

(** [s.padStart(2, '0')]. *)
Definition padStart2 (s : string) : string :=
  match String.length s with
  | 0 => "00"
  | 1 => "0" +:+ s
  | _ => s
  end.

(** [formatDuration(seconds)] of the component with rename:
    [Math.floor(seconds / 60)], [seconds % 60] (the remainder has the sign
    of [seconds]), minutes as they are, seconds padded to two. *)
Definition formatDuration (seconds : Z) : string :=
  let mins := (seconds / 60)%Z in
  let secs := Z.rem seconds 60 in
  toString mins +:+ ":" +:+ padStart2 (toString secs).

(** [formatTime(seconds)] of the component without rename: both padded. *)
Definition formatTime (seconds : Z) : string :=
  let mins := (seconds / 60)%Z in
  let secs := Z.rem seconds 60 in
  padStart2 (toString mins) +:+ ":" +:+ padStart2 (toString secs).

(** ** Describing a session *)

(** The acquisition [a] with another answer of the microphone. *)
Definition with_mic (mic : option MediaStream) (a : Acquisition) : Acquisition :=
  mkAcquisition (acq_now a) (acq_display a) mic (acq_isTypeSupported a) (acq_message a).

(** The slices the recorder delivered during [es], in order. *)
Definition slices (es : list event) : list Blob :=
  omap (λ e, match e with DataAvailable data => Some data | _ => None end) es.

(** [startRecording] went through: the display was granted with a video
    track and the chosen container is supported. *)
Definition acquired (a : Acquisition) : Prop :=
  (∃ s, acq_display a = Some s ∧ getVideoTracks s ≠ []) ∧
  acq_isTypeSupported a (select_mimeType (acq_isTypeSupported a)) = true.

(** A session that started at instant [t0] with the counter at [r0] and
    nothing else pending, [n] milliseconds later: the interval [i] is due
    at the next whole second, whatever else is pending is the auto-stop
    timeout [j], and the counter shows the whole seconds elapsed. *)
Definition ticking (t0 r0 : Z) (i j : positive) (n : Z) (c : Component) : Prop :=
  (0 ≤ n)%Z ∧ clock c = (t0 + n)%Z ∧ recordingTime c = (r0 + n / 1000)%Z ∧
  timerRef c = Some i ∧ autoStopTimerRef c = Some j ∧
  ∃ rest, timers c = mkTimer i TickInterval (t0 + 1000 * (n / 1000 + 1)) :: rest ∧
          Forall (λ t, timer_kind t = AutoStopTimeout ∧ timer_id t = j) rest.

(** Everything the platform answers while a handler runs is a success. *)
Definition all_ok (f : Finalization) : Prop :=
  fin_save f = IdbOk ∧ fin_list f = IdbOk ∧ fin_play f = IdbOk.

(** What no event of a session changes: the container of the recorder,
    the store and the two timer refs. *)
Definition held (c : Component) :=
  (rec_mimeType <$> mediaRecorderRef c, db c, timerRef c, autoStopTimerRef c).

(** A slice the handler keeps. *)
Definition kept (data : Blob) : Prop := (0 <? blob_size data)%Z = true.

End ScreenRecorder.

(** * The recording store *)

Module StoreTheory.
Import IndexedDB.

(** ** Keys *)

Lemma append_cons (x : Ascii.ascii) (a b : string) :
  String x a +:+ b = String x (a +:+ b).
Proof. reflexivity. Qed.

Lemma length_append (a b : string) :
  String.length (a +:+ b) = String.length a + String.length b.
Proof.
  induction a as [|x a IH]; [reflexivity|].
  rewrite append_cons. simpl. by rewrite IH.
Qed.

Lemma append_inj_l (a b s : string) : a +:+ s = b +:+ s → a = b.
Proof.
  revert b. induction a as [|x a IH]; intros [|y b] H.
  - reflexivity.
  - apply (f_equal String.length) in H.
    rewrite !length_append in H. simpl in H. lia.
  - apply (f_equal String.length) in H.
    rewrite !length_append in H. simpl in H. lia.
  - rewrite !append_cons in H. injection H as -> H. f_equal. by apply IH.
Qed.

Lemma metaKey_inj (a b : string) : metaKey a = metaKey b → a = b.
Proof. apply append_inj_l. Qed.

Lemma metaKey_ne (id : string) : metaKey id ≠ id.
Proof.
  intros H. apply (f_equal String.length) in H.
  unfold metaKey in H. rewrite length_append in H. simpl in H. lia.
Qed.

Lemma endsWith_refl (s : string) : endsWith s s = true.
Proof. destruct s; cbn [endsWith]; by rewrite String.eqb_refl. Qed.

Lemma endsWith_append (a s : string) : endsWith (a +:+ s) s = true.
Proof.
  induction a as [|x a IH]; [apply endsWith_refl|].
  rewrite append_cons. cbn [endsWith]. rewrite IH. by destruct (String.eqb _ _).
Qed.

Lemma endsWith_metaKey (id : string) : endsWith (metaKey id) "-meta" = true.
Proof. apply endsWith_append. Qed.

(** Conversely, a key that ends with the suffix is the derived key of
    what stands before the suffix. *)
Lemma endsWith_inv (k s : string) : endsWith k s = true → ∃ a, k = a +:+ s.
Proof.
  induction k as [|x k IH]; cbn [endsWith].
  - destruct (String.eqb_spec "" s) as [<-|]; [by exists ""|done].
  - destruct (String.eqb_spec (String x k) s) as [<-|].
    + by exists "".
    + intros [a ->]%IH. by exists (String x a).
Qed.

Lemma plain_ne_metaKey (i j : string) : plain_id j → j ≠ metaKey i.
Proof. intros Hj ->. unfold plain_id in Hj. by rewrite endsWith_metaKey in Hj. Qed.

(** ** Listing *)

Lemma elem_of_getAllKeys (st : Store) (k : string) :
  k ∈ getAllKeys st ↔ is_Some (st !! k).
Proof.
  unfold getAllKeys. rewrite merge_sort_Permutation, list_elem_of_fmap. split.
  - intros [[k' v] [-> H%elem_of_map_to_list]]. by exists v.
  - intros [v H]. exists (k, v). split; [done|]. by apply elem_of_map_to_list.
Qed.

Lemma elem_of_metaValues (st : Store) (v : value) :
  v ∈ metaValues st ↔ ∃ k, endsWith k "-meta" = true ∧ st !! k = Some v.
Proof.
  unfold metaValues. rewrite list_elem_of_omap. split.
  - intros (k & [Hk _]%list_elem_of_filter & Hv). eauto.
  - intros (k & Hk & Hv). exists k. split; [|done].
    apply list_elem_of_filter. split; [done|]. apply elem_of_getAllKeys. eauto.
Qed.

Section SortFacts.
Context {A : Type} (cmp : A → A → Z).

Lemma sort_insert_Permutation (x : A) (l : list A) :
  sort_insert cmp x l ≡ₚ x :: l.
Proof.
  induction l as [|y l IH]; simpl; [done|].
  destruct (cmp x y <=? 0)%Z; [done|]. rewrite IH. apply Permutation_swap.
Qed.

Lemma array_sort_Permutation (l : list A) : array_sort cmp l ≡ₚ l.
Proof.
  induction l as [|x l IH]; simpl; [done|].
  by rewrite sort_insert_Permutation, IH.
Qed.

(** Where the comparator is a strict order read off a key, the result
    is ordered by it. *)
Context (key : A → Z).

Lemma sort_insert_sorted (x : A) (l : list A) :
  keyed cmp key (x :: l) →
  StronglySorted (descending key) l →
  StronglySorted (descending key) (sort_insert cmp x l).
Proof.
  intros Hk Hl. induction Hl as [|y l Hl IH Hy]; simpl.
  - repeat constructor.
  - rewrite (Hk x y)
      by (auto using list_elem_of_here, list_elem_of_further).
    destruct (Z.leb_spec (key y - key x) 0) as [Hle|Hgt].
    + constructor; [by constructor|]. constructor.
      * unfold descending. lia.
      * eapply Forall_impl; [exact Hy|]. intros z Hz. unfold descending in *. lia.
    + constructor.
      * apply IH. intros a b Ha Hb. apply Hk.
        -- apply elem_of_cons in Ha as [->|Ha];
             auto using list_elem_of_here, list_elem_of_further.
        -- apply elem_of_cons in Hb as [->|Hb];
             auto using list_elem_of_here, list_elem_of_further.
      * rewrite sort_insert_Permutation. constructor; [|done].
        unfold descending. lia.
Qed.

Lemma array_sort_sorted (l : list A) :
  keyed cmp key l → StronglySorted (descending key) (array_sort cmp l).
Proof.
  induction l as [|x l IH]; intros Hk; simpl; [constructor|].
  apply sort_insert_sorted.
  - intros a b Ha Hb. apply Hk.
    + rewrite <- (array_sort_Permutation l) at 1. done.
    + rewrite <- (array_sort_Permutation l) at 1. done.
  - apply IH. intros a b Ha Hb. apply Hk; by apply list_elem_of_further.
Qed.
End SortFacts.

Lemma elem_of_listed (st : Store) (v : value) :
  v ∈ array_sort SortCompare (metaValues st) ↔
  ∃ k, endsWith k "-meta" = true ∧ st !! k = Some v.
Proof. rewrite array_sort_Permutation. apply elem_of_metaValues. Qed.

(** ** Invariants of reachable stores *)

Lemma run_op_well_keyed (o : op) (st : Store) :
  well_keyed st → well_keyed (run_op o st).
Proof.
  intros WK k m.
  destruct o as [[] now dflt id blob dur name|[] id upd|[] id]; simpl; try apply WK.
  - rewrite lookup_insert. case_decide as Hk; [by intros [= <-]|].
    rewrite lookup_insert. case_decide; [done|]. apply WK.
  - destruct (st !! metaKey id) as [existing|] eqn:Hex; simpl; [|apply WK].
    rewrite lookup_insert. case_decide as Hk; [|apply WK].
    subst k. destruct existing as [b|m0|n]; simpl; [done| |done].
    intros [= <-]. apply WK in Hex. by destruct (upd_name upd).
  - rewrite lookup_delete. case_decide; [done|].
    rewrite lookup_delete. case_decide; [done|]. apply WK.
Qed.

Lemma reachable_well_keyed (st : Store) : reachable st → well_keyed st.
Proof.
  induction 1 as [|o st _ IH _]; [|by apply run_op_well_keyed].
  intros k m. by rewrite lookup_empty.
Qed.

Lemma plain_store_empty : plain_store ∅.
Proof. split; intros *; by rewrite lookup_empty. Qed.

Lemma plain_store_save now dflt id blob dur name st :
  plain_id id → plain_store st →
  plain_store (saveVideo IdbOk now dflt id blob dur name st).2.
Proof.
  intros Hid [Hb Hm Ho]. simpl.
  pose proof (metaKey_ne id) as Hne.
  split; intros k.
  - intros b. rewrite lookup_insert. case_decide; [done|].
    rewrite lookup_insert. case_decide as Hk.
    + intros _. subst k. split; [done|]. eexists. apply lookup_insert_eq.
    + intros [Hp [m Hmeta]]%Hb. split; [done|]. exists m.
      rewrite lookup_insert_ne by (by intros ?%metaKey_inj).
      rewrite lookup_insert_ne; [done|]. by apply plain_ne_metaKey.
  - intros m. rewrite lookup_insert. case_decide as Hk.
    + intros _. exists id. split; [done|]. split; [done|]. exists blob.
      rewrite lookup_insert_ne by done. apply lookup_insert_eq.
    + rewrite lookup_insert. case_decide; [done|].
      intros (i & -> & Hi & b & Hpay)%Hm. exists i. do 2 (split; [done|]).
      exists b. rewrite lookup_insert_ne by (symmetry; by apply plain_ne_metaKey).
      rewrite lookup_insert_ne; [done|]. congruence.
  - intros n. rewrite lookup_insert. case_decide; [done|].
    rewrite lookup_insert. case_decide; [done|]. apply Ho.
Qed.

Lemma plain_store_update id upd st :
  plain_id id → plain_store st →
  plain_store (updateRecordingMeta IdbOk id upd st).2.
Proof.
  intros Hid HP. pose proof HP as [Hb Hm Ho]. simpl.
  destruct (st !! metaKey id) as [[b|m0|n]|] eqn:Hex; simpl; [| |by apply Ho in Hex|done].
  { apply Hb in Hex as [Hp _]. unfold plain_id in Hp. by rewrite endsWith_metaKey in Hp. }
  set (m1 := match upd_name upd with Some n => set_name n m0 | None => m0 end).
  split; intros k.
  - intros b. rewrite lookup_insert. case_decide; [done|].
    intros [Hp [m Hmeta]]%Hb. split; [done|].
    destruct (decide (metaKey id = metaKey k)) as [Heq|Hne].
    + exists m1. rewrite <- Heq. apply lookup_insert_eq.
    + exists m. by rewrite lookup_insert_ne.
  - intros m. rewrite lookup_insert. case_decide as Hk.
    + intros _. subst k. apply Hm in Hex as (i & Hki & Hi & b & Hpay).
      exists i. do 2 (split; [done|]). exists b.
      rewrite lookup_insert_ne; [done|]. symmetry. by apply plain_ne_metaKey.
    + intros (i & -> & Hi & b & Hpay)%Hm. exists i. do 2 (split; [done|]).
      exists b. rewrite lookup_insert_ne; [done|]. symmetry. by apply plain_ne_metaKey.
  - intros n. rewrite lookup_insert. case_decide; [done|]. apply Ho.
Qed.

Lemma plain_store_delete id st :
  plain_id id → plain_store st → plain_store (deleteVideo IdbOk id st).2.
Proof.
  intros Hid [Hb Hm Ho]. simpl. split; intros k.
  - intros b. rewrite lookup_delete. case_decide; [done|].
    rewrite lookup_delete. case_decide as Hk; [done|].
    intros [Hp [m Hmeta]]%Hb. split; [done|]. exists m.
    rewrite lookup_delete_ne by (by intros ?%metaKey_inj).
    rewrite lookup_delete_ne; [done|]. by apply plain_ne_metaKey.
  - intros m. rewrite lookup_delete. case_decide as Hk; [done|].
    rewrite lookup_delete. case_decide; [done|].
    intros (i & -> & Hi & b & Hpay)%Hm. exists i. do 2 (split; [done|]).
    exists b. rewrite lookup_delete_ne by (symmetry; by apply plain_ne_metaKey).
    rewrite lookup_delete_ne; [done|]. congruence.
  - intros n. rewrite lookup_delete. case_decide; [done|].
    rewrite lookup_delete. case_decide; [done|]. apply Ho.
Qed.

Lemma reachable_plain_store (st : Store) :
  reachable_with plain_id st → plain_store st.
Proof.
  induction 1 as [|o st _ IH Hid]; [apply plain_store_empty|].
  destruct o as [[] now dflt id blob dur name|[] id upd|[] id]; simpl in *; try done.
  - by apply (plain_store_save now dflt id blob dur name).
  - by apply (plain_store_update id upd).
  - by apply (plain_store_delete id).
Qed.

Lemma plain_store_paired (st : Store) : plain_store st → paired st.
Proof.
  intros [Hb Hm _] id. split.
  - intros [b Hpay]. by apply Hb in Hpay as [_ ?].
  - intros [m Hmeta]. by apply Hm in Hmeta as (i & <-%metaKey_inj & _ & ?).
Qed.

(** ** Sorted listings *)

Lemma SortCompare_keyed (l : list value) :
  Forall (λ v, is_meta v = true) l → keyed SortCompare timestamp_or_0 l.
Proof.
  intros Hl x y Hx Hy.
  rewrite Forall_forall in Hl. pose proof (Hl x Hx). pose proof (Hl y Hy).
  by destruct x, y.
Qed.

Lemma descending_strict (l : list value) :
  Forall (λ v, is_meta v = true) l →
  NoDup (omap timestamp_of l) →
  StronglySorted (descending timestamp_or_0) l → StronglySorted newer l.
Proof.
  induction l as [|x l IH]; intros Hm Hnd Hs; [constructor|].
  apply Forall_cons in Hm as [Hx Hm].
  apply StronglySorted_inv in Hs as [Hs Hxl].
  destruct x as [|mx|]; try done. simpl in Hnd.
  apply NoDup_cons in Hnd as [Hnew Hnd].
  constructor; [by apply IH|].
  rewrite Forall_forall in Hm, Hxl. apply Forall_forall. intros y Hy.
  pose proof (Hm y Hy) as Hmy. pose proof (Hxl y Hy) as Hle.
  destruct y as [|my|]; try done. exists mx, my. do 2 (split; [done|]).
  unfold descending, timestamp_or_0 in Hle. simpl in Hle.
  assert (meta_timestamp my ≠ meta_timestamp mx); [|lia].
  intros Heq. apply Hnew. rewrite <- Heq.
  apply list_elem_of_omap. by exists (VMeta my).
Qed.

Lemma metaValues_are_meta (st : Store) :
  metadata_under_suffix st → Forall (λ v, is_meta v = true) (metaValues st).
Proof.
  intros H. apply Forall_forall. intros v (k & Hk & Hv)%elem_of_metaValues.
  by apply (H k v).
Qed.

(** ** The claims on the store *)

(** C1, as stated, fails: saving under ["a"] and then deleting
    ["a-meta"] removes the metadata record of ["a"] and leaves its payload,
    so a reachable store is not paired. *)
Lemma pairing_broken_by_suffixed_id :
  let st := run_op (OpDelete IdbOk "a-meta")
              (run_op (OpSave IdbOk 100 "Recording" "a" (mkBlob [] "video/webm") 0 None) ∅) in
  reachable st ∧ has_payload st "a" ∧ ¬ has_meta st "a" ∧ ¬ paired st.
Proof.
  intros st.
  assert (Hpay : has_payload st "a") by (by eexists).
  assert (Hmeta : ¬ has_meta st "a") by (by intros [m Hm]).
  split; [|split; [done|split; [done|]]].
  - by repeat constructor.
  - intros Hp. by apply Hmeta, Hp.
Qed.

(** C1, amended: when no id given to [saveVideo], [updateRecordingMeta] or
    [deleteVideo] ends with ["-meta"], every reachable store is paired: it
    holds a payload under [id] exactly when it holds a metadata record
    under ["{id}-meta"]. *)
Theorem plain_ids_keep_pairing (st : Store) :
  reachable_with plain_id st → paired st.
Proof. intros H. by apply plain_store_paired, reachable_plain_store. Qed.

Lemma plain_ids_keep_pairing_witness :
  paired (run_op (OpDelete IdbOk "r2")
            (run_op (OpSave IdbOk 200 "Recording" "r2" (mkBlob [] "video/webm") 0 None)
               (run_op (OpSave IdbOk 100 "Recording" "r1" (mkBlob [] "video/webm") 0 None) ∅))).
Proof.
  apply plain_ids_keep_pairing.
  repeat (apply reach_step; [|reflexivity]). apply reach_empty.
Defined.

(** C2: after a successful [saveVideo(id, payload, duration)],
    [getVideo(id)] returns the saved payload and [getAllRecordings()]
    includes the metadata record just built, whose id is [id] and whose
    size is the byte length of the payload. *)
Theorem save_then_read env now dflt id payload duration name st meta st' :
  saveVideo env now dflt id payload duration name st = (Resolved meta, st') →
  getVideo IdbOk id st' = Resolved (Some (VBlob payload)) ∧
  ∃ l, getAllRecordings IdbOk st' = Resolved l ∧ VMeta meta ∈ l ∧
       meta_id meta = id ∧ meta_duration meta = duration ∧
       meta_size meta = Z.of_nat (length (blob_bytes payload)).
Proof.
  destruct env; simpl; intros [= <- <-]. split.
  - rewrite lookup_insert_ne by apply metaKey_ne. by rewrite lookup_insert_eq.
  - eexists. split; [reflexivity|]. split; [|done].
    apply elem_of_listed. exists (metaKey id).
    split; [apply endsWith_metaKey|apply lookup_insert_eq].
Qed.

Lemma save_then_read_witness :
  let payload := mkBlob [Byte.x1a; Byte.x45; Byte.xdf; Byte.xa3] "video/webm" in
  let meta := mkMeta "r1" "Recording" 100 7 4 in
  let st' := (saveVideo IdbOk 100 "Recording" "r1" payload 7 None ∅).2 in
  getVideo IdbOk "r1" st' = Resolved (Some (VBlob payload)) ∧
  ∃ l, getAllRecordings IdbOk st' = Resolved l ∧ VMeta meta ∈ l ∧
       meta_id meta = "r1" ∧ meta_duration meta = 7%Z ∧
       meta_size meta = Z.of_nat (length (blob_bytes payload)).
Proof.
  intros payload meta st'.
  exact (save_then_read IdbOk 100 "Recording" "r1" payload 7 None ∅ meta st' eq_refl).
Defined.

(** C3, as stated, fails: of two saved records with timestamps 100 and
    200, the second under the id ["b-meta"], the listing holds the older
    record first, then the raw payload of the second, then the newer
    record; and no other order of these three entries would be sorted
    either, since one of them has no timestamp. *)
Lemma listing_unsorted_with_suffixed_id :
  let blob := mkBlob [Byte.x00] "video/webm" in
  let st := (saveVideo IdbOk 200 "Recording" "b-meta" blob 0 None
               (saveVideo IdbOk 100 "Recording" "a" blob 0 None ∅).2).2 in
  let l := [VMeta (mkMeta "a" "Recording" 100 0 1); VBlob blob;
            VMeta (mkMeta "b-meta" "Recording" 200 0 1)] in
  getAllRecordings IdbOk st = Resolved l ∧
  ¬ StronglySorted newer l ∧
  ∀ l', l' ≡ₚ l → ¬ StronglySorted newer l'.
Proof.
  intros blob st l.
  assert (Hperm : ∀ l', l' ≡ₚ l → ¬ StronglySorted newer l').
  { intros l' Hl' Hs.
    assert (Hin : VBlob blob ∈ l')
      by (rewrite Hl'; apply list_elem_of_further, list_elem_of_here).
    pose proof (Permutation_length Hl') as Hlen.
    destruct l' as [|x [|y [|z [|]]]]; try discriminate Hlen.
    apply StronglySorted_inv in Hs as [Hs Hx].
    apply Forall_cons in Hx as [(mx & my & -> & -> & _) Hx].
    apply Forall_cons in Hx as [(? & mz & _ & -> & _) _].
    repeat (apply elem_of_cons in Hin as [Hin|Hin]; [discriminate Hin|]).
    by apply elem_of_nil in Hin. }
  split; [by vm_compute|]. split; [by apply Hperm|exact Hperm].
Qed.

(** C3, amended: when the keys that end with ["-meta"] hold metadata
    records (as they do when no saved id ends with ["-meta"]) and these
    have pairwise distinct timestamps, [getAllRecordings()] returns exactly
    those records, each strictly newer than all that follow it. *)
Theorem listing_newest_first (st : Store) :
  metadata_under_suffix st →
  NoDup (omap timestamp_of (metaValues st)) →
  ∃ l, getAllRecordings IdbOk st = Resolved l ∧
       l ≡ₚ metaValues st ∧ StronglySorted newer l.
Proof.
  intros Hmeta Hnd. eexists. split; [reflexivity|]. split.
  - apply array_sort_Permutation.
  - pose proof (metaValues_are_meta st Hmeta) as Hall.
    apply descending_strict.
    + by rewrite array_sort_Permutation.
    + by rewrite array_sort_Permutation.
    + by apply array_sort_sorted, SortCompare_keyed.
Qed.

Lemma listing_newest_first_witness :
  let st := (saveVideo IdbOk 200 "Recording" "r2" (mkBlob [Byte.x01] "video/webm") 0 None
               (saveVideo IdbOk 100 "Recording" "r1" (mkBlob [Byte.x00] "video/webm") 0 None ∅).2).2 in
  ∃ l, getAllRecordings IdbOk st = Resolved l ∧
       l ≡ₚ metaValues st ∧ StronglySorted newer l.
Proof.
  intros st. apply listing_newest_first.
  - apply (bool_decide_unpack _). vm_compute. exact I.
  - apply (bool_decide_unpack _). vm_compute. exact I.
Defined.

(** Where the derived key is absent, [store.get] yields [undefined] and
    the handler resolves null before any [put]. *)
Lemma update_absent id updates st :
  st !! metaKey id = None →
  updateRecordingMeta IdbOk id updates st = (Resolved None, st).
Proof. intros H. simpl. by rewrite H. Qed.

(** C7, as stated, fails: after a save under the id ["a-meta"], the id
    ["a"] has no metadata record, yet the derived key of ["a"] is the
    payload key of ["a-meta"]. [updateRecordingMeta("a", {name: "x"})]
    reads that payload as the existing record, resolves to the object
    [{name: "x"}] instead of null, and puts it over the payload. *)
Lemma update_overwrites_payload_of_suffixed_id :
  let blob := mkBlob [Byte.x00] "video/webm" in
  let st := run_op (OpSave IdbOk 100 "Recording" "a-meta" blob 0 None) ∅ in
  reachable st ∧ ¬ has_meta st "a" ∧
  getVideo IdbOk "a-meta" st = Resolved (Some (VBlob blob)) ∧
  ∃ st', updateRecordingMeta IdbOk "a" (mkUpdates (Some "x")) st
         = (Resolved (Some (VObj (Some "x"))), st') ∧
         st' ≠ st ∧
         getVideo IdbOk "a-meta" st' = Resolved (Some (VObj (Some "x"))).
Proof.
  intros blob st. split; [|split; [|split]].
  - apply reach_step; [apply reach_empty|exact I].
  - intros [m Hm]. vm_compute in Hm. discriminate Hm.
  - reflexivity.
  - eexists. split; [reflexivity|]. split; [|reflexivity].
    intros H. apply (f_equal (λ s : Store, s !! "a-meta")) in H.
    vm_compute in H. discriminate H.
Qed.

(** C7, amended: [updateRecordingMeta] resolves to null and leaves the
    store as it was, creating no record and raising no error, for every
    id whose derived key ["{id}-meta"] is absent from the store; when no
    id given to [saveVideo], [updateRecordingMeta] or [deleteVideo] ends
    with ["-meta"], these are all the ids with no existing metadata
    record. *)
Theorem update_without_record_resolves_null id updates (st : Store) :
  (st !! metaKey id = None →
   updateRecordingMeta IdbOk id updates st = (Resolved None, st)) ∧
  (reachable_with plain_id st → ¬ has_meta st id →
   updateRecordingMeta IdbOk id updates st = (Resolved None, st)).
Proof.
  split; [apply update_absent|].
  intros Hr Hno. apply update_absent.
  pose proof (reachable_plain_store st Hr) as [Hb _ Ho].
  destruct (st !! metaKey id) as [[b|m|n]|] eqn:Hk; [| | |done].
  - apply Hb in Hk as [Hp _]. unfold plain_id in Hp. by rewrite endsWith_metaKey in Hp.
  - exfalso. apply Hno. by exists m.
  - by apply Ho in Hk.
Qed.

Lemma update_without_record_resolves_null_witness :
  let st := run_op (OpSave IdbOk 100 "Recording" "r1" (mkBlob [Byte.x00] "video/webm") 3 None) ∅ in
  updateRecordingMeta IdbOk "nonexistent" (mkUpdates (Some "x")) ∅ = (Resolved None, ∅) ∧
  updateRecordingMeta IdbOk "r2" (mkUpdates (Some "x")) st = (Resolved None, st).
Proof.
  intros st. split.
  - apply (proj1 (update_without_record_resolves_null "nonexistent" (mkUpdates (Some "x")) ∅)).
    reflexivity.
  - apply (proj2 (update_without_record_resolves_null "r2" (mkUpdates (Some "x")) st)).
    + apply reach_step; [apply reach_empty|reflexivity].
    + intros [m Hm]. vm_compute in Hm. discriminate Hm.
Defined.

(** C8: [updateRecordingMeta(id, {name})] on an existing metadata record
    resolves to that record with only its name replaced, stores it under
    the same key, and changes no other key, the payload under [id]
    included. *)
Theorem update_renames_only id n m st :
  st !! metaKey id = Some (VMeta m) →
  ∃ m' st',
    updateRecordingMeta IdbOk id (mkUpdates (Some n)) st = (Resolved (Some (VMeta m')), st') ∧
    meta_name m' = n ∧ meta_id m' = meta_id m ∧
    meta_timestamp m' = meta_timestamp m ∧ meta_duration m' = meta_duration m ∧
    meta_size m' = meta_size m ∧
    st' !! metaKey id = Some (VMeta m') ∧
    st' !! id = st !! id ∧
    ∀ k, k ≠ metaKey id → st' !! k = st !! k.
Proof.
  intros H. exists (set_name n m), (<[metaKey id := VMeta (set_name n m)]> st).
  simpl. rewrite H. simpl. do 6 (split; [done|]).
  split; [apply lookup_insert_eq|]. split.
  - apply lookup_insert_ne, metaKey_ne.
  - intros k Hk. by apply lookup_insert_ne.
Qed.

Lemma update_renames_only_witness :
  let st := (saveVideo IdbOk 100 "Recording" "r1" (mkBlob [Byte.x00] "video/webm") 7 None ∅).2 in
  ∃ m' st',
    updateRecordingMeta IdbOk "r1" (mkUpdates (Some "x")) st = (Resolved (Some (VMeta m')), st') ∧
    meta_name m' = "x" ∧ meta_timestamp m' = 100%Z ∧ meta_duration m' = 7%Z ∧
    st' !! "r1" = Some (VBlob (mkBlob [Byte.x00] "video/webm")).
Proof.
  intros st.
  destruct (update_renames_only "r1" "x" (mkMeta "r1" "Recording" 100 7 1) st eq_refl)
    as (m' & st' & Hup & Hn & _ & Ht & Hd & _ & _ & Hpay & _).
  exists m', st'. do 4 (split; [assumption|]). rewrite Hpay. reflexivity.
Defined.

(** C9: on a reachable store, [deleteVideo(id)] resolves and leaves neither
    key: [getVideo(id)] then returns null, [getAllRecordings()] holds no
    record with that id, and deleting again resolves too and changes
    nothing, whether or not the keys were present. *)
Theorem delete_removes_both id st :
  reachable st →
  ∃ st', deleteVideo IdbOk id st = (Resolved tt, st') ∧
    st' !! id = None ∧ st' !! metaKey id = None ∧
    getVideo IdbOk id st' = Resolved None ∧
    (∃ l, getAllRecordings IdbOk st' = Resolved l ∧ ∀ m, VMeta m ∈ l → meta_id m ≠ id) ∧
    deleteVideo IdbOk id st' = (Resolved tt, st').
Proof.
  intros Hr. eexists. split; [reflexivity|].
  assert (Hid : delete (metaKey id) (delete id st) !! id = None).
  { rewrite lookup_delete_ne by apply metaKey_ne. apply lookup_delete_eq. }
  assert (Hmk : delete (metaKey id) (delete id st) !! metaKey id = None)
    by apply lookup_delete_eq.
  split; [done|]. split; [done|]. split; [by simpl; rewrite Hid|]. split.
  - eexists. split; [reflexivity|]. intros m (k & _ & Hk)%elem_of_listed Heq.
    assert (WK : well_keyed (run_op (OpDelete IdbOk id) st))
      by (by apply run_op_well_keyed, reachable_well_keyed).
    apply WK in Hk as Hkey. rewrite Heq in Hkey. subst k.
    simpl in Hk. by rewrite Hmk in Hk.
  - simpl. f_equal. rewrite (delete_id _ id Hid). by apply delete_id.
Qed.

Lemma delete_removes_both_witness :
  let st := (saveVideo IdbOk 100 "Recording" "r1" (mkBlob [Byte.x00] "video/webm") 7 None ∅).2 in
  ∃ st', deleteVideo IdbOk "r1" st = (Resolved tt, st') ∧
         getVideo IdbOk "r1" st' = Resolved None ∧
         deleteVideo IdbOk "r1" st' = (Resolved tt, st').
Proof.
  intros st.
  assert (Hr : reachable st).
  { apply (reach_step _ (OpSave IdbOk 100 "Recording" "r1" (mkBlob [Byte.x00] "video/webm") 7 None));
      [apply reach_empty|exact I]. }
  destruct (delete_removes_both "r1" st Hr) as (st' & Hdel & _ & _ & Hget & _ & Hagain).
  exists st'. auto.
Defined.

Lemma reachable_with_mono (P Q : string → Prop) (st : Store) :
  (∀ id, P id → Q id) → reachable_with P st → reachable_with Q st.
Proof. intros HPQ. induction 1; constructor; auto. Qed.

(** C10: [getAllRecordings] returns the values under the keys that end
    with ["-meta"], whatever they are. When no id passed to the store ends
    with ["-meta"] these are exactly the metadata records of the stored
    payloads; saving under the id ["a-meta"] makes the listing contain the
    raw payload. *)
Theorem suffix_decides_listing :
  (∀ st : Store, ∃ l, getAllRecordings IdbOk st = Resolved l ∧
     ∀ v, v ∈ l ↔ ∃ k, endsWith k "-meta" = true ∧ st !! k = Some v) ∧
  (∀ st : Store, reachable_with plain_id st →
     ∃ l, getAllRecordings IdbOk st = Resolved l ∧
       ∀ v, v ∈ l ↔ ∃ m, v = VMeta m ∧ has_payload st (meta_id m) ∧
                         st !! metaKey (meta_id m) = Some (VMeta m)) ∧
  (endsWith "a-meta" "-meta" = true ∧
   ∀ now dflt payload duration name (st : Store),
     ∃ l, getAllRecordings IdbOk
            (saveVideo IdbOk now dflt "a-meta" payload duration name st).2 = Resolved l ∧
          VBlob payload ∈ l).
Proof.
  split; [|split].
  - intros st. eexists. split; [reflexivity|]. apply elem_of_listed.
  - intros st Hr. eexists. split; [reflexivity|]. intros v.
    rewrite elem_of_listed.
    pose proof (reachable_plain_store st Hr) as [Hb Hm Ho].
    assert (WK : well_keyed st).
    { apply reachable_well_keyed. by eapply reachable_with_mono; [|exact Hr]. }
    split.
    + intros (k & Hk & Hv). destruct v as [b|m|n].
      * apply Hb in Hv as [Hp _]. unfold plain_id in Hp. congruence.
      * exists m. split; [done|]. pose proof (WK _ _ Hv) as ->.
        apply Hm in Hv as Hv'. destruct Hv' as (i & <-%metaKey_inj & _ & Hpay).
        done.
      * by apply Ho in Hv.
    + intros (m & -> & _ & Hv). exists (metaKey (meta_id m)).
      split; [apply endsWith_metaKey|done].
  - split; [reflexivity|]. intros now dflt payload duration name st.
    eexists. split; [reflexivity|]. apply elem_of_listed. exists "a-meta".
    split; [reflexivity|]. simpl.
    rewrite lookup_insert_ne by apply metaKey_ne. apply lookup_insert_eq.
Qed.

Lemma suffix_decides_listing_witness :
  let st := run_op (OpSave IdbOk 100 "Recording" "r1" (mkBlob [Byte.x00] "video/webm") 0 None) ∅ in
  ∃ l, getAllRecordings IdbOk st = Resolved l ∧
       ∀ v, v ∈ l ↔ ∃ m, v = VMeta m ∧ has_payload st (meta_id m) ∧
                         st !! metaKey (meta_id m) = Some (VMeta m).
Proof.
  intros st. apply (proj1 (proj2 suffix_decides_listing)).
  apply reach_step; [apply reach_empty|reflexivity].
Defined.

End StoreTheory.

(** * The capture controller *)

Module CaptureTheory.
Import IndexedDB ScreenRecorder.

(** ** Timers and phases *)

Lemma stop_if_recording_finalizes (c : Component) :
  in_session c → phase (stop_if_recording c) = Finalizing.
Proof.
  unfold in_session, stop_if_recording, phase.
  destruct (mediaRecorderRef c) as [[[] []]|] eqn:E; simpl; rewrite ?E; simpl;
    intros [|]; done.
Qed.

Lemma fire_window (c : Component) (t : Timer) :
  clock (fire c t) = clock c ∧ timers (fire c t) = timers c.
Proof.
  unfold fire, stop_if_recording.
  destruct (timer_kind t); [done|].
  by destruct (mediaRecorderRef c) as [[[] ? ? ?]|].
Qed.

Lemma fire_in_session (c : Component) (t : Timer) :
  in_session c → in_session (fire c t).
Proof.
  intros H. unfold fire. destruct (timer_kind t).
  - exact H.
  - right. by apply stop_if_recording_finalizes.
Qed.

Lemma fire_finalizing (c : Component) (t : Timer) :
  phase c = Finalizing → phase (fire c t) = Finalizing.
Proof.
  intros H. unfold fire. destruct (timer_kind t); [exact H|].
  apply stop_if_recording_finalizes. by right.
Qed.

Lemma foldl_fire_window (l : list Timer) (c : Component) :
  clock (foldl fire c l) = clock c ∧ timers (foldl fire c l) = timers c.
Proof.
  revert c. induction l as [|t l IH]; intros c; simpl; [done|].
  destruct (IH (fire c t)) as [-> ->]. apply fire_window.
Qed.

Lemma foldl_fire_finalizing (l : list Timer) (c : Component) :
  phase c = Finalizing → phase (foldl fire c l) = Finalizing.
Proof.
  revert c. induction l as [|t l IH]; intros c H; simpl; [done|].
  by apply IH, fire_finalizing.
Qed.

Lemma foldl_fire_in_session (l : list Timer) (c : Component) :
  in_session c → in_session (foldl fire c l).
Proof.
  revert c. induction l as [|t l IH]; intros c H; simpl; [done|].
  by apply IH, fire_in_session.
Qed.

(** An auto-stop timeout among the timers that fire ends the recording. *)
Lemma foldl_fire_auto_stop (l : list Timer) (c : Component) (t : Timer) :
  in_session c → t ∈ l → timer_kind t = AutoStopTimeout →
  phase (foldl fire c l) = Finalizing.
Proof.
  revert c. induction l as [|u l IH]; intros c Hc Ht Hk; [by apply elem_of_nil in Ht|].
  simpl. apply elem_of_cons in Ht as [<-|Ht].
  - apply foldl_fire_finalizing. unfold fire. rewrite Hk.
    by apply stop_if_recording_finalizes.
  - apply IH; [by apply fire_in_session|done..].
Qed.

Lemma advance1_clock (c : Component) : clock (advance1 c) = (clock c + 1)%Z.
Proof. unfold advance1. by destruct (foldl_fire_window
  (List.filter (λ t, (timer_due t =? clock c + 1)%Z) (timers c))
  (set_window c (clock c + 1) (omap (rearm (clock c + 1)) (timers c)) (next_timer c)))
  as [-> _]. Qed.

Lemma advance1_timers (c : Component) :
  timers (advance1 c) = omap (rearm (clock c + 1)) (timers c).
Proof. unfold advance1. by destruct (foldl_fire_window
  (List.filter (λ t, (timer_due t =? clock c + 1)%Z) (timers c))
  (set_window c (clock c + 1) (omap (rearm (clock c + 1)) (timers c)) (next_timer c)))
  as [_ ->]. Qed.

Lemma advance1_in_session (c : Component) : in_session c → in_session (advance1 c).
Proof. intros H. unfold advance1. by apply foldl_fire_in_session. Qed.

Lemma advance1_finalizing (c : Component) :
  phase c = Finalizing → phase (advance1 c) = Finalizing.
Proof. intros H. unfold advance1. by apply foldl_fire_finalizing. Qed.

(** A pending auto-stop timeout fires when its instant comes. *)
Lemma auto_stop_due_now (c : Component) (t : Timer) :
  in_session c → t ∈ timers c → timer_kind t = AutoStopTimeout →
  timer_due t = (clock c + 1)%Z →
  phase (advance1 c) = Finalizing.
Proof.
  intros Hc Ht Hk Hdue.
  unfold advance1. apply (foldl_fire_auto_stop _ _ t); [done| |done].
  apply list_elem_of_In, filter_In. split; [by apply list_elem_of_In|].
  by apply Z.eqb_eq.
Qed.

(** ** Entering [Recording] *)

(** A call of [startRecording] on an idle component that ends with a
    recording recorder has armed the auto-stop timeout, due
    [MAX_RECORDING_DURATION] after the instant of the call, and its
    [onstop] handler holds the [recordingTime] of the render the call
    belongs to. *)
Lemma startRecording_enters (a : Acquisition) (c : Component) :
  phase c = Idle → phase (startRecording a c) = Recording →
  clock (startRecording a c) = clock c ∧
  (∃ j, mkTimer j AutoStopTimeout (clock c + MAX_RECORDING_DURATION)
          ∈ timers (startRecording a c)) ∧
  (∃ r, mediaRecorderRef (startRecording a c) = Some r ∧
        onstop_recordingTime r = recordingTime c) ∧
  currentRecordingIdRef (startRecording a c) = Some (generateRecordingId (acq_now a)).
Proof.
  intros Hidle. unfold startRecording, acquire_mic. cbn [includeMic set_streamRef set_currentRecordingIdRef set_chunksRef set_error].
  destruct (acq_display a) as [screen|].
  2:{ intros H. unfold phase in *. simpl in H. congruence. }
  destruct (negb _).
  { destruct (includeMic c), (acq_mic a); intros H; unfold phase in *;
      simpl in H; congruence. }
  destruct (getVideoTracks screen).
  { destruct (includeMic c), (acq_mic a); intros H; discriminate H. }
  intros _.
  destruct (includeMic c), (acq_mic a); simpl;
    (split; [done|]); (split; [|split; [by eexists|done]]);
    eexists; apply elem_of_app; right; apply list_elem_of_here.
Qed.

Lemma ondataavailable_same (data : Blob) (c : Component) :
  phase (ondataavailable data c) = phase c ∧
  clock (ondataavailable data c) = clock c ∧
  timers (ondataavailable data c) = timers c.
Proof. unfold ondataavailable. by destruct (0 <? blob_size data)%Z. Qed.

Lemma onended_window (c : Component) :
  clock (onended c) = clock c ∧ timers (onended c) = timers c.
Proof.
  unfold onended, stop_if_recording.
  by destruct (mediaRecorderRef c) as [[[] ? ? ?]|].
Qed.

Lemma handle_in_session (c : Component) (e : event) :
  in_session c → in_session (handle c e).
Proof.
  intros H. destruct e as [|data|]; simpl.
  - by apply advance1_in_session.
  - unfold in_session. by destruct (ondataavailable_same data c) as [-> _].
  - right. by apply stop_if_recording_finalizes.
Qed.

Lemma handle_finalizing (c : Component) (e : event) :
  phase c = Finalizing → phase (handle c e) = Finalizing.
Proof.
  intros H. destruct e as [|data|]; simpl.
  - by apply advance1_finalizing.
  - by destruct (ondataavailable_same data c) as [-> _].
  - apply stop_if_recording_finalizes. by right.
Qed.

Lemma run_finalizing (es : list event) (c : Component) :
  phase c = Finalizing → phase (run es c) = Finalizing.
Proof.
  revert c. induction es as [|e es IH]; intros c H; [done|].
  by apply IH, handle_finalizing.
Qed.

(** The timeout fires whatever else happens before its instant. *)
Lemma auto_stop_fires_in_run (es : list event) (c : Component) (t : Timer) :
  in_session c → t ∈ timers c → timer_kind t = AutoStopTimeout →
  (clock c < timer_due t ≤ clock c + elapsed es)%Z →
  phase (run es c) = Finalizing.
Proof.
  revert c. induction es as [|e es IH]; intros c Hc Ht Hk Hdue; [simpl in Hdue; lia|].
  change (run (e :: es) c) with (run es (handle c e)).
  destruct e as [|data|]; cbn [elapsed handle] in *.
  - destruct (decide (timer_due t = clock c + 1)%Z) as [Hnow|Hlater].
    + apply run_finalizing. by apply (auto_stop_due_now c t).
    + apply (IH _ (advance1_in_session c Hc)); [|done|rewrite advance1_clock; lia].
      rewrite advance1_timers. apply list_elem_of_omap. exists t. split; [done|].
      unfold rearm. destruct (Z.eqb_spec (timer_due t) (clock c + 1)); [lia|done].
  - destruct (ondataavailable_same data c) as (Hp & Hcl & Hts).
    apply IH; [|by rewrite Hts|done|by rewrite Hcl].
    unfold in_session. by rewrite Hp.
  - destruct (onended_window c) as [Hcl Hts].
    apply IH; [|by rewrite Hts|done|by rewrite Hcl].
    right. by apply stop_if_recording_finalizes.
Qed.

(** C6: [startRecording], on entering [Recording], arms an auto-stop
    timeout due 180 seconds later, and a session that receives no manual
    stop is in [Finalizing] once 180 seconds have passed, whatever slices
    and screen-share endings arrive meanwhile: the timeout has called
    [stop] by then. *)
Theorem auto_stop_by_180_seconds (a : Acquisition) (c : Component) (es : list event) :
  phase c = Idle → phase (startRecording a c) = Recording →
  (180 * 1000 ≤ elapsed es)%Z →
  (∃ j, mkTimer j AutoStopTimeout (clock (startRecording a c) + 180 * 1000)
          ∈ timers (startRecording a c)) ∧
  phase (run es (startRecording a c)) = Finalizing.
Proof.
  intros Hidle Hrec Hms.
  destruct (startRecording_enters a c Hidle Hrec) as (Hclock & [j Hj] & _).
  split; [exists j; by rewrite Hclock|].
  apply (auto_stop_fires_in_run _ _
           (mkTimer j AutoStopTimeout (clock c + MAX_RECORDING_DURATION)));
    [by left|done|done|].
  rewrite Hclock. unfold MAX_RECORDING_DURATION. simpl timer_due. lia.
Qed.

(** ** The [onstop] handler *)

Lemma all_stopped_stop_tracks (s : MediaStream) : all_stopped (stop_tracks s) = true.
Proof. induction s as [|t s IH]; [done|]. simpl. exact IH. Qed.

Lemma filter_not_id (i : positive) (l : list Timer) (t : Timer) :
  t ∈ List.filter (λ t, negb (Pos.eqb (timer_id t) i)) l → timer_id t ≠ i ∧ t ∈ l.
Proof.
  intros [Ht Hi]%list_elem_of_In%filter_In.
  split; [|by apply list_elem_of_In].
  intros <-. by rewrite Pos.eqb_refl in Hi.
Qed.

(** The cleanup releases everything the session holds. *)
Lemma cleanup_released (c : Component) : released (cleanup c).
Proof.
  unfold released, cleanup.
  destruct (timerRef c) as [i|] eqn:Ei, (autoStopTimerRef c) as [j|] eqn:Ej;
    repeat (cbn; rewrite ?Ei, ?Ej);
    (split; [by destruct (streamRef c); [apply all_stopped_stop_tracks|]|]);
    (split; [by destruct (micStreamRef c); [apply all_stopped_stop_tracks|]|]);
    (split; [by destruct (audioContextRef c)|]);
    (split; [|split; [|done]]); intros t Ht; try done.
  - apply filter_not_id in Ht as [_ [Ht _]%filter_not_id]. congruence.
  - apply filter_not_id in Ht as [Ht _]. congruence.
  - apply filter_not_id in Ht as [Ht _]. congruence.
  - apply filter_not_id in Ht as [Ht _]. congruence.
Qed.

(** When the save resolves the handler resolves and the cleanup has run. *)
Lemma onstop_resolved_released (f : Finalization) (r : MediaRecorder) (c : Component) :
  fin_save f = IdbOk →
  (onstop f r c).1 = Resolved tt ∧ released (onstop f r c).2.
Proof.
  intros Hok. unfold onstop. rewrite Hok.
  destruct (truthy_id (currentRecordingIdRef c)); simpl;
    (split; [done|apply cleanup_released]).
Qed.

(** When the save rejects the handler stops at the [await]: it rejects
    and the component is as the handler found it. *)
Lemma onstop_rejected_untouched (f : Finalization) (r : MediaRecorder) (c : Component)
    (id : string) :
  truthy_id (currentRecordingIdRef c) = Some id → fin_save f ≠ IdbOk →
  onstop f r c = (Rejected, c).
Proof.
  intros Hid Hbad. unfold onstop. rewrite Hid. by destruct (fin_save f).
Qed.

Lemma cleanup_db (c : Component) : db (cleanup c) = db c.
Proof.
  unfold cleanup.
  destruct (timerRef c) as [i|] eqn:Ei, (autoStopTimerRef c) as [j|] eqn:Ej;
    by repeat (cbn; rewrite ?Ei, ?Ej).
Qed.

Lemma loadRecordings_db (env : idb_outcome) (c : Component) :
  db (loadRecordings env c) = db c.
Proof. unfold loadRecordings. by destruct (getAllRecordings env (db c)). Qed.

Lemma playRecording_db (env : idb_outcome) (id : string) (c : Component) :
  db (playRecording env id c) = db c.
Proof.
  unfold playRecording. by destruct (getVideo env id (db c)) as [[[]|]|].
Qed.

(** The duration the handler passes to [saveVideo] is the
    [recordingTime] its closure holds. *)
Lemma onstop_saves_closure_value (f : Finalization) (r : MediaRecorder) (c : Component)
    (id : string) :
  truthy_id (currentRecordingIdRef c) = Some id → fin_save f = IdbOk →
  ∃ m, stored_meta id (onstop f r c).2 = Some m ∧
       meta_duration m = onstop_recordingTime r.
Proof.
  intros Hid Hok. unfold onstop. rewrite Hid, Hok.
  exists (mkMeta id (fin_defaultName f) (fin_now f) (onstop_recordingTime r)
            (blob_size (assemble (chunksRef c) (rec_mimeType r)))).
  split; [|done]. unfold stored_meta. cbn [saveVideo snd].
  rewrite cleanup_db, playRecording_db, loadRecordings_db. cbn [db set_db].
  by rewrite lookup_insert_eq.
Qed.

(** C4, evaluated where the store refuses the save: the handler rejects
    and nothing is released. Screen and microphone tracks are live, the
    audio graph is open, the two timers are still set, the component still
    shows a recording in progress and the elapsed time is not reset. *)
Theorem refused_save_skips_cleanup :
  ∃ c, deliver_stop store_refuses five_seconds = (Rejected, c) ∧
    streamRef c = Some [mkTrack VideoTrack true; mkTrack AudioTrack true] ∧
    micStreamRef c = Some [mkTrack AudioTrack true] ∧
    audioContextRef c = Some (mkAudioContext false) ∧
    timers c = [mkTimer 1 TickInterval 6000; mkTimer 2 AutoStopTimeout 180000] ∧
    timerRef c = Some 1%positive ∧ autoStopTimerRef c = Some 2%positive ∧
    isRecording c = true ∧ recordingTime c = 5%Z ∧
    ¬ released c.
Proof.
  eexists. split; [vm_compute; reflexivity|].
  do 8 (split; [reflexivity|]).
  intros (_ & _ & _ & _ & _ & H). discriminate H.
Qed.

(** C5, evaluated on a recording of five seconds: the timer has counted
    five, the handler passes zero to [saveVideo], and the stored metadata
    record has duration zero. *)
Theorem saved_duration_is_stale :
  recordingTime five_seconds = 5%Z ∧
  ∃ c m, deliver_stop store_accepts five_seconds = (Resolved tt, c) ∧
    stored_meta "recording-1700000000000" c = Some m ∧
    meta_size m = 4%Z ∧ meta_duration m = 0%Z.
Proof.
  split; [by vm_compute|].
  eexists _, _. split; [vm_compute; reflexivity|]. by vm_compute.
Qed.

(** ** The closure outlives the session *)

Lemma stop_if_recording_closure (c : Component) :
  closure_of (stop_if_recording c) = closure_of c.
Proof.
  unfold closure_of, stop_if_recording.
  by destruct (mediaRecorderRef c) as [[[] ? ? ?]|] eqn:E; simpl; rewrite ?E.
Qed.

Lemma fire_closure (c : Component) (t : Timer) : closure_of (fire c t) = closure_of c.
Proof.
  unfold fire. destruct (timer_kind t); [done|apply stop_if_recording_closure].
Qed.

Lemma foldl_fire_closure (l : list Timer) (c : Component) :
  closure_of (foldl fire c l) = closure_of c.
Proof.
  revert c. induction l as [|t l IH]; intros c; simpl; [done|].
  by rewrite IH, fire_closure.
Qed.

Lemma handle_closure (c : Component) (e : event) : closure_of (handle c e) = closure_of c.
Proof.
  destruct e as [|data|]; simpl.
  - unfold advance1. by rewrite foldl_fire_closure.
  - unfold ondataavailable. by destruct (0 <? blob_size data)%Z.
  - apply stop_if_recording_closure.
Qed.

Lemma run_closure (es : list event) (c : Component) : closure_of (run es c) = closure_of c.
Proof.
  revert c. induction es as [|e es IH]; intros c; [done|].
  change (run (e :: es) c) with (run es (handle c e)).
  by rewrite IH, handle_closure.
Qed.

Lemma run_in_session (es : list event) (c : Component) :
  in_session c → in_session (run es c).
Proof.
  revert c. induction es as [|e es IH]; intros c H; [done|].
  by apply IH, handle_in_session.
Qed.

(** Whatever happens between start and stop and however long it takes,
    the duration stored for the session is the [recordingTime] shown when
    [startRecording] was called. *)
Lemma session_saves_start_value (a : Acquisition) (c : Component) (es : list event)
    (f : Finalization) :
  phase c = Idle → phase (startRecording a c) = Recording → fin_save f = IdbOk →
  ∃ m, stored_meta (generateRecordingId (acq_now a))
         (deliver_stop f (stopRecording (run es (startRecording a c)))).2 = Some m ∧
       meta_duration m = recordingTime c.
Proof.
  intros Hidle Hrec Hok.
  destruct (startRecording_enters a c Hidle Hrec) as (_ & _ & (r & Hr & Hrt) & Hid).
  set (c' := stopRecording (run es (startRecording a c))).
  assert (Hcl : closure_of c' = (Some (recordingTime c), Some (generateRecordingId (acq_now a)))).
  { unfold c', stopRecording. rewrite stop_if_recording_closure, run_closure.
    unfold closure_of. by rewrite Hr, Hid, <- Hrt. }
  assert (Hfin : phase c' = Finalizing).
  { apply stop_if_recording_finalizes, run_in_session. by left. }
  unfold closure_of in Hcl. unfold phase in Hfin. unfold deliver_stop.
  destruct (mediaRecorderRef c') as [[[] [] mime rt]|]; try done.
  injection Hcl as Hrt' Hid'. simpl in Hrt'. subst rt.
  cbn [rec_stop_queued rec_state rec_mimeType onstop_recordingTime].
  match goal with
  | |- ∃ m, stored_meta _ (onstop f ?r' ?c'').2 = _ ∧ _ =>
      destruct (onstop_saves_closure_value f r' c'' (generateRecordingId (acq_now a)))
        as (m & Hm & Hd); [by cbn; rewrite Hid'|done|]
  end.
  exists m. split; [exact Hm|exact Hd].
Qed.

Lemma elapsed_milliseconds (n : nat) : elapsed (replicate n Millisecond) = Z.of_nat n.
Proof. induction n as [|n IH]; [done|]. cbn [replicate elapsed]. lia. Qed.

Lemma auto_stop_by_180_seconds_witness :
  let c := startRecording granted (mounted ∅) in
  (∃ j, mkTimer j AutoStopTimeout (clock c + 180 * 1000) ∈ timers c) ∧
  phase (run (replicate (Z.to_nat 180000) Millisecond) c) = Finalizing.
Proof.
  apply auto_stop_by_180_seconds; [reflexivity|reflexivity|].
  rewrite elapsed_milliseconds. lia.
Defined.

(** ** The ids of the controller *)

Lemma lacks_append (ch : Ascii.ascii) (a b : string) :
  lacks ch (a +:+ b) = lacks ch a && lacks ch b.
Proof.
  induction a as [|x a IH]; [done|].
  rewrite StoreTheory.append_cons. simpl. rewrite IH. by destruct (negb _).
Qed.

Lemma string_of_uint_lacks_a (d : Decimal.uint) :
  lacks "a"%char (NilEmpty.string_of_uint d) = true.
Proof. induction d; simpl; auto. Qed.

(** [generateRecordingId] never returns an id that ends with ["-meta"]:
    the ids the controller saves under are plain. *)
Lemma generateRecordingId_plain (now : Z) : plain_id (generateRecordingId now).
Proof.
  unfold plain_id. destruct (endsWith _ _) eqn:E; [|done].
  apply StoreTheory.endsWith_inv in E as [p Hp].
  apply (f_equal (lacks "a"%char)) in Hp.
  unfold generateRecordingId in Hp. rewrite !lacks_append in Hp.
  replace (lacks "a"%char "-meta") with false in Hp by done.
  rewrite andb_false_r in Hp.
  destruct (Z.to_int now); simpl in Hp; by rewrite string_of_uint_lacks_a in Hp.
Qed.

End CaptureTheory.

(** * Further laws of the recording store *)

Module StoreLaws.
Import IndexedDB StoreTheory.

(** ** Saving and deleting *)

(** Deleting a recording saved under an id whose two keys were free gives
    back the store as it was. *)
Theorem save_then_delete_restores now dflt id blob dur name (st : Store) :
  st !! id = None → st !! metaKey id = None →
  (deleteVideo IdbOk id (saveVideo IdbOk now dflt id blob dur name st).2).2 = st.
Proof.
  intros Hid Hmk. simpl.
  rewrite (delete_insert_ne _ id (metaKey id)) by (apply not_eq_sym, metaKey_ne).
  rewrite (delete_insert_id _ id) by done.
  by apply delete_insert_id.
Qed.

Lemma save_then_delete_restores_witness :
  (deleteVideo IdbOk "r1"
     (saveVideo IdbOk 100 "Recording" "r1" (mkBlob [Byte.x00] "video/webm") 3 None ∅).2).2
  = (∅ : Store).
Proof. apply save_then_delete_restores; reflexivity. Defined.

(** Saving again under the same id replaces payload and metadata: the
    store is the one the second save alone would have produced. *)
Theorem save_again_replaces now1 dflt1 blob1 dur1 name1 now2 dflt2 blob2 dur2 name2
    id (st : Store) :
  saveVideo IdbOk now2 dflt2 id blob2 dur2 name2
    (saveVideo IdbOk now1 dflt1 id blob1 dur1 name1 st).2
  = saveVideo IdbOk now2 dflt2 id blob2 dur2 name2 st.
Proof.
  simpl. f_equal.
  rewrite (insert_insert_ne _ id (metaKey id)) by (apply not_eq_sym, metaKey_ne).
  by rewrite !insert_insert_eq.
Qed.

(** Saving under a plain id leaves the payload and the metadata record of
    every other plain id as they were. *)
Theorem save_leaves_others now dflt id blob dur name other (st : Store) :
  plain_id id → plain_id other → other ≠ id →
  let st' := (saveVideo IdbOk now dflt id blob dur name st).2 in
  getVideo IdbOk other st' = getVideo IdbOk other st ∧
  st' !! metaKey other = st !! metaKey other.
Proof.
  intros Hid Hother Hne. simpl. split.
  - f_equal. rewrite lookup_insert_ne by (apply not_eq_sym; by apply plain_ne_metaKey).
    by rewrite lookup_insert_ne.
  - rewrite lookup_insert_ne by (by intros ?%metaKey_inj).
    rewrite lookup_insert_ne; [done|]. by apply plain_ne_metaKey.
Qed.

Lemma save_leaves_others_witness :
  let st := (saveVideo IdbOk 100 "Recording" "r1" (mkBlob [Byte.x00] "video/webm") 3 None ∅).2 in
  let st' := (saveVideo IdbOk 200 "Recording" "r2" (mkBlob [Byte.x01] "video/webm") 4 None st).2 in
  getVideo IdbOk "r1" st' = getVideo IdbOk "r1" st ∧
  st' !! metaKey "r1" = st !! metaKey "r1".
Proof. intros st. apply save_leaves_others; [reflexivity|reflexivity|discriminate]. Defined.

Lemma listed_after_delete id m (st : Store) :
  well_keyed st → plain_id id →
  VMeta m ∈ array_sort SortCompare (metaValues (delete (metaKey id) (delete id st))) ↔
  VMeta m ∈ array_sort SortCompare (metaValues st) ∧ meta_id m ≠ id.
Proof.
  intros WK Hid. rewrite !elem_of_listed. split.
  - intros (k & Hk & Hv).
    rewrite lookup_delete in Hv. case_decide as Hk1; [done|].
    rewrite lookup_delete in Hv. case_decide as Hk2; [done|].
    split; [by exists k|]. intros <-. by apply WK in Hv.
  - intros [(k & Hk & Hv) Hne]. exists k. split; [done|].
    pose proof (WK _ _ Hv) as Hkey.
    rewrite lookup_delete_ne by (intros <-; by apply Hne, metaKey_inj).
    rewrite lookup_delete_ne; [done|].
    intros <-. unfold plain_id in Hid. congruence.
Qed.

(** On a reachable store, deleting a plain id removes the record of that
    id from the listing and no other record. *)
Theorem delete_unlists_only_that_record id (st : Store) :
  reachable st → plain_id id →
  ∃ l l', getAllRecordings IdbOk st = Resolved l ∧
          getAllRecordings IdbOk (deleteVideo IdbOk id st).2 = Resolved l' ∧
          ∀ m, VMeta m ∈ l' ↔ VMeta m ∈ l ∧ meta_id m ≠ id.
Proof.
  intros Hr Hid. eexists _, _. do 2 (split; [reflexivity|]).
  intros m. by apply listed_after_delete; [apply reachable_well_keyed|].
Qed.

Lemma delete_unlists_only_that_record_witness :
  let st := (saveVideo IdbOk 200 "Recording" "r2" (mkBlob [Byte.x01] "video/webm") 4 None
               (saveVideo IdbOk 100 "Recording" "r1" (mkBlob [Byte.x00] "video/webm") 3 None ∅).2).2 in
  ∃ l l', getAllRecordings IdbOk st = Resolved l ∧
          getAllRecordings IdbOk (deleteVideo IdbOk "r1" st).2 = Resolved l' ∧
          ∀ m, VMeta m ∈ l' ↔ VMeta m ∈ l ∧ meta_id m ≠ "r1".
Proof.
  intros st. apply delete_unlists_only_that_record; [|reflexivity].
  apply (reach_step _ (OpSave IdbOk 200 "Recording" "r2" (mkBlob [Byte.x01] "video/webm") 4 None));
    [|exact I].
  apply (reach_step _ (OpSave IdbOk 100 "Recording" "r1" (mkBlob [Byte.x00] "video/webm") 3 None));
    [apply reach_empty|exact I].
Defined.

(** ** Listings *)

Lemma getAllKeys_NoDup (st : Store) : NoDup (getAllKeys st).
Proof.
  unfold getAllKeys. rewrite merge_sort_Permutation. apply NoDup_fst_map_to_list.
Qed.

Lemma getAllKeys_Sorted (st : Store) : Sorted String.le (getAllKeys st).
Proof. apply (Sorted_merge_sort String.le). Qed.

(** The keys, and their order, depend on which keys are present only. *)
Lemma getAllKeys_same_keys (st1 st2 : Store) :
  (∀ k, is_Some (st1 !! k) ↔ is_Some (st2 !! k)) → getAllKeys st1 = getAllKeys st2.
Proof.
  intros H. apply (Sorted_unique String.le); try apply getAllKeys_Sorted.
  apply NoDup_Permutation; try apply getAllKeys_NoDup.
  intros k. by rewrite !elem_of_getAllKeys.
Qed.

Lemma sort_insert_fmap {A : Type} (cmp : A → A → Z) (f : A → A) (x : A) (l : list A) :
  (∀ a b, cmp (f a) (f b) = cmp a b) →
  sort_insert cmp (f x) (f <$> l) = f <$> sort_insert cmp x l.
Proof.
  intros Hf. induction l as [|y l IH]; [done|].
  cbn [fmap list_fmap sort_insert]. rewrite Hf.
  destruct (cmp x y <=? 0)%Z; [done|]. cbn [fmap list_fmap]. f_equal. exact IH.
Qed.

Lemma array_sort_fmap {A : Type} (cmp : A → A → Z) (f : A → A) (l : list A) :
  (∀ a b, cmp (f a) (f b) = cmp a b) →
  array_sort cmp (f <$> l) = f <$> array_sort cmp l.
Proof.
  intros Hf. induction l as [|x l IH]; [done|].
  cbn [fmap list_fmap array_sort foldr]. fold (array_sort cmp (f <$> l)).
  fold (array_sort cmp l). rewrite IH. by apply sort_insert_fmap.
Qed.

Lemma SortCompare_rename (id n : string) (a b : value) :
  SortCompare (rename_entry id n a) (rename_entry id n b) = SortCompare a b.
Proof.
  unfold SortCompare, compareFn.
  assert (H : ∀ v, timestamp_of (rename_entry id n v) = timestamp_of v).
  { intros [|m|]; simpl; [done| |done]. by destruct (decide _). }
  by rewrite !H.
Qed.

Lemma listing_after_rename id n m (st : Store) :
  well_keyed st → st !! metaKey id = Some (VMeta m) →
  array_sort SortCompare (metaValues (<[metaKey id := VMeta (set_name n m)]> st))
  = rename_entry id n <$> array_sort SortCompare (metaValues st).
Proof.
  intros WK Hm.
  assert (Hidm : meta_id m = id) by (apply WK in Hm as Hk; by apply metaKey_inj in Hk).
  rewrite <- (array_sort_fmap SortCompare) by apply SortCompare_rename. f_equal.
  unfold metaValues.
  rewrite (getAllKeys_same_keys _ st).
  2:{ intros k. rewrite lookup_insert. case_decide as Hk; [|done].
      subst k. rewrite Hm. split; eauto. }
  induction (filter _ (getAllKeys st)) as [|k ks IH]; [done|].
  cbn [omap list_omap fmap list_fmap]. rewrite lookup_insert. case_decide as Hk.
  - subst k. rewrite Hm. cbn [fmap list_fmap rename_entry].
    rewrite decide_True by done. f_equal. exact IH.
  - destruct (st !! k) as [v|] eqn:Hv; [|exact IH].
    cbn [fmap list_fmap]. f_equal; [|exact IH].
    destruct v as [|m'|]; simpl; [done| |done].
    destruct (decide (meta_id m' = id)) as [Heq|]; [|done].
    apply WK in Hv. congruence.
Qed.

(** On a reachable store, renaming an existing record gives the listing
    it had, entry by entry in the same order, with the name of that one
    record replaced. *)
Theorem rename_keeps_listing_order id n m (st : Store) :
  reachable st → st !! metaKey id = Some (VMeta m) →
  ∃ l l', getAllRecordings IdbOk st = Resolved l ∧
          getAllRecordings IdbOk
            (updateRecordingMeta IdbOk id (mkUpdates (Some n)) st).2 = Resolved l' ∧
          l' = rename_entry id n <$> l.
Proof.
  intros Hr Hm. eexists _, _. do 2 (split; [reflexivity|]).
  simpl. rewrite Hm. simpl.
  by apply listing_after_rename; [apply reachable_well_keyed|].
Qed.

Lemma rename_keeps_listing_order_witness :
  let st := (saveVideo IdbOk 200 "Recording" "r2" (mkBlob [Byte.x01] "video/webm") 4 None
               (saveVideo IdbOk 100 "Recording" "r1" (mkBlob [Byte.x00] "video/webm") 3 None ∅).2).2 in
  ∃ l l', getAllRecordings IdbOk st = Resolved l ∧
          getAllRecordings IdbOk
            (updateRecordingMeta IdbOk "r1" (mkUpdates (Some "Demo")) st).2 = Resolved l' ∧
          l' = rename_entry "r1" "Demo" <$> l.
Proof.
  intros st.
  apply (rename_keeps_listing_order "r1" "Demo" (mkMeta "r1" "Recording" 100 3 1));
    [|reflexivity].
  apply (reach_step _ (OpSave IdbOk 200 "Recording" "r2" (mkBlob [Byte.x01] "video/webm") 4 None));
    [|exact I].
  apply (reach_step _ (OpSave IdbOk 100 "Recording" "r1" (mkBlob [Byte.x00] "video/webm") 3 None));
    [apply reach_empty|exact I].
Defined.

(** Where the keys that end with ["-meta"] hold metadata records, the
    listing never puts a record before a newer one, equal timestamps
    included. *)
Theorem listing_never_older_first (st : Store) :
  metadata_under_suffix st →
  ∃ l, getAllRecordings IdbOk st = Resolved l ∧ l ≡ₚ metaValues st ∧
       StronglySorted (descending timestamp_or_0) l.
Proof.
  intros H. eexists. split; [reflexivity|]. split; [apply array_sort_Permutation|].
  by apply array_sort_sorted, SortCompare_keyed, metaValues_are_meta.
Qed.

Lemma listing_never_older_first_witness :
  let st := (saveVideo IdbOk 100 "Recording" "r2" (mkBlob [Byte.x01] "video/webm") 4 None
               (saveVideo IdbOk 100 "Recording" "r1" (mkBlob [Byte.x00] "video/webm") 3 None ∅).2).2 in
  ∃ l, getAllRecordings IdbOk st = Resolved l ∧ l ≡ₚ metaValues st ∧
       StronglySorted (descending timestamp_or_0) l.
Proof.
  intros st. apply listing_never_older_first.
  apply (bool_decide_unpack _). vm_compute. exact I.
Defined.

(** An update that carries no name leaves an existing record, and the
    whole store, as they were, and resolves to that record. *)
Theorem update_without_name_changes_nothing id m (st : Store) :
  st !! metaKey id = Some (VMeta m) →
  updateRecordingMeta IdbOk id (mkUpdates None) st = (Resolved (Some (VMeta m)), st).
Proof. intros H. simpl. rewrite H. simpl. f_equal. by apply insert_id. Qed.

Lemma update_without_name_changes_nothing_witness :
  let st := (saveVideo IdbOk 100 "Recording" "r1" (mkBlob [Byte.x00] "video/webm") 3 None ∅).2 in
  updateRecordingMeta IdbOk "r1" (mkUpdates None) st
  = (Resolved (Some (VMeta (mkMeta "r1" "Recording" 100 3 1))), st).
Proof. intros st. apply update_without_name_changes_nothing. reflexivity. Defined.

(** ** Sizes *)

(** In every reachable store, with whatever ids, a metadata record next
    to a payload states the byte length of that payload. *)
Lemma reachable_sizes (st : Store) :
  reachable st →
  ∀ id m b, st !! metaKey id = Some (VMeta m) → st !! id = Some (VBlob b) →
            meta_size m = blob_size b.
Proof.
  induction 1 as [|o st _ IH _]; [intros ???; by rewrite lookup_empty|].
  intros id m b.
  destruct o as [[] now dflt id' blob dur name|[] id' upd|[] id']; simpl; try apply IH.
  - rewrite lookup_insert. case_decide as Hk.
    + apply metaKey_inj in Hk as ->. intros [= <-].
      rewrite lookup_insert_ne by apply metaKey_ne. rewrite lookup_insert_eq.
      by intros [= <-].
    + rewrite lookup_insert. case_decide; [done|]. intros Hm.
      rewrite lookup_insert. case_decide; [done|].
      rewrite lookup_insert. case_decide; [subst; done|]. by apply IH.
  - destruct (st !! metaKey id') as [existing|] eqn:Hex; simpl; [|apply IH].
    rewrite lookup_insert. case_decide as Hk.
    + apply metaKey_inj in Hk as ->.
      rewrite lookup_insert_ne by apply metaKey_ne.
      destruct existing as [|m0|]; simpl; [done| |done].
      intros [= <-] Hb. pose proof (IH _ _ _ Hex Hb). by destruct (upd_name upd).
    + intros Hm. rewrite lookup_insert. case_decide; [|by apply IH].
      by destruct existing as [|m0|].
  - rewrite lookup_delete. case_decide; [done|].
    rewrite lookup_delete. case_decide; [done|]. intros Hm.
    rewrite lookup_delete. case_decide; [done|].
    rewrite lookup_delete. case_decide; [done|]. by apply IH.
Qed.

(** With plain ids, every record of the listing can be played: its
    payload is stored under its id, and the size it shows is the byte
    length of that payload. *)
Theorem listed_records_have_their_payload (st : Store) :
  reachable_with plain_id st →
  ∃ l, getAllRecordings IdbOk st = Resolved l ∧
       ∀ m, VMeta m ∈ l →
            ∃ b, getVideo IdbOk (meta_id m) st = Resolved (Some (VBlob b)) ∧
                 meta_size m = Z.of_nat (length (blob_bytes b)).
Proof.
  intros Hr. eexists. split; [reflexivity|]. intros m (k & _ & Hv)%elem_of_listed.
  assert (Hreach : reachable st) by (by eapply reachable_with_mono; [|exact Hr]).
  pose proof (reachable_well_keyed st Hreach _ _ Hv) as ->.
  pose proof (reachable_plain_store st Hr) as [_ Hm _].
  destruct (Hm _ _ Hv) as (i & <-%metaKey_inj & _ & b & Hb).
  exists b. split; [by simpl; rewrite Hb|].
  apply (reachable_sizes st Hreach _ _ _ Hv Hb).
Qed.

Lemma listed_records_have_their_payload_witness :
  let st := run_op (OpSave IdbOk 100 "Recording" "r1" (mkBlob [Byte.x00; Byte.x01] "video/webm") 3 None) ∅ in
  ∃ l, getAllRecordings IdbOk st = Resolved l ∧
       ∀ m, VMeta m ∈ l →
            ∃ b, getVideo IdbOk (meta_id m) st = Resolved (Some (VBlob b)) ∧
                 meta_size m = Z.of_nat (length (blob_bytes b)).
Proof.
  intros st. apply listed_records_have_their_payload.
  apply reach_step; [apply reach_empty|reflexivity].
Defined.

(** ** Keys *)

(** Whatever it is given and however the platform answers,
    [updateRecordingMeta] neither creates nor removes a key. *)
Theorem update_keeps_the_keys env id updates (st : Store) (k : string) :
  is_Some ((updateRecordingMeta env id updates st).2 !! k) ↔ is_Some (st !! k).
Proof.
  destruct env; simpl; try done.
  destruct (st !! metaKey id) as [existing|] eqn:Hex; simpl; [|done].
  rewrite lookup_insert. case_decide as Hk; [|done].
  subst k. rewrite Hex. split; eauto.
Qed.

End StoreLaws.

(** * Further laws of the capture controller *)

Module SessionLaws.
Import IndexedDB ScreenRecorder StoreTheory CaptureTheory.

(** ** Ids *)

Lemma toString_inj (a b : Z) : toString a = toString b → a = b.
Proof.
  intros H. apply (f_equal NilEmpty.int_of_string) in H.
  unfold toString in H. rewrite !NilEmpty.isi in H. injection H as H.
  apply (f_equal Z.of_int) in H. by rewrite !DecimalZ.of_to in H.
Qed.

(** Two calls of [generateRecordingId] in different milliseconds return
    different ids, and no id it returns ends with ["-meta"]. *)
Theorem generated_ids_distinct_and_plain :
  (∀ now1 now2, generateRecordingId now1 = generateRecordingId now2 → now1 = now2) ∧
  (∀ now, endsWith (generateRecordingId now) "-meta" = false).
Proof.
  split; [|apply generateRecordingId_plain].
  intros now1 now2 H. unfold generateRecordingId in H.
  apply (inj (String.append "recording-")) in H. by apply toString_inj.
Qed.

Lemma generated_ids_distinct_and_plain_witness :
  1700000000000%Z = 1700000000000%Z ∧
  endsWith (generateRecordingId 1700000000000) "-meta" = false.
Proof.
  destruct generated_ids_distinct_and_plain as [Hinj Hplain].
  split; [apply Hinj; reflexivity|apply Hplain].
Defined.

(** ** Stopping *)

(** [stopRecording] changes nothing unless the recorder is recording, and
    a second call after a first changes nothing more. *)
Theorem stop_is_guarded_and_idempotent (c : Component) :
  (phase c ≠ Recording → stopRecording c = c) ∧
  stopRecording (stopRecording c) = stopRecording c.
Proof.
  unfold stopRecording, stop_if_recording, phase.
  destruct (mediaRecorderRef c) as [[[] q mime rt]|] eqn:E; simpl; rewrite ?E; simpl;
    split; try done.
Qed.

Lemma stop_is_guarded_and_idempotent_witness :
  stopRecording (mounted ∅) = mounted ∅.
Proof. apply (proj1 (stop_is_guarded_and_idempotent (mounted ∅))). discriminate. Defined.

(** ** Starting *)

Lemma acquired_dec (a : Acquisition) : acquired a ∨ ¬ acquired a.
Proof.
  unfold acquired.
  destruct (acq_display a) as [s|]; [|right; by intros [(? & ? & _) _]].
  destruct (getVideoTracks s) as [|t ts] eqn:Ht.
  { right. intros [(s' & [= <-] & Hs) _]. by apply Hs. }
  destruct (acq_isTypeSupported a (select_mimeType (acq_isTypeSupported a))) eqn:Hsup.
  - left. split; [|done]. exists s. split; [done|]. by rewrite Ht.
  - right. by intros [_ ?].
Qed.

(** From an idle component [startRecording] either enters [Recording],
    with no error shown, or stays idle, shows the message of the failure
    and has armed no timer, touched no store and not raised
    [isRecording]. *)
Theorem start_enters_or_reports (a : Acquisition) (c : Component) :
  phase c = Idle →
  let c' := startRecording a c in
  (acquired a ∧ phase c' = Recording ∧ error c' = None ∧ isRecording c' = true) ∨
  (¬ acquired a ∧ phase c' = Idle ∧ error c' = Some (acq_message a) ∧
   isRecording c' = isRecording c ∧ timers c' = timers c ∧ db c' = db c).
Proof.
  intros Hidle c'. subst c'. unfold phase in Hidle.
  destruct (acquired_dec a) as [Hacq|Hno]; [left|right]; (split; [done|]).
  - destruct Hacq as [(s & Hs & Hv) Hsup].
    unfold startRecording, acquire_mic. rewrite Hs, Hsup.
    cbn [negb includeMic set_streamRef set_currentRecordingIdRef set_chunksRef set_error].
    destruct (getVideoTracks s); [done|].
    by destruct (includeMic c), (acq_mic a).
  - unfold startRecording, acquire_mic, acquired, phase in *.
    cbn [negb includeMic set_streamRef set_currentRecordingIdRef set_chunksRef set_error].
    destruct (acq_display a) as [s|]; [|by simpl].
    destruct (acq_isTypeSupported a (select_mimeType (acq_isTypeSupported a))) eqn:Hsup;
      cbn [negb].
    + destruct (getVideoTracks s) eqn:Ht.
      * by destruct (includeMic c), (acq_mic a).
      * exfalso. apply Hno. split; [|done]. exists s. split; [done|]. by rewrite Ht.
    + by destruct (includeMic c), (acq_mic a).
Qed.

Lemma start_enters_or_reports_witness :
  let c' := startRecording granted (mounted ∅) in
  (acquired granted ∧ phase c' = Recording ∧ error c' = None ∧ isRecording c' = true) ∨
  (¬ acquired granted ∧ phase c' = Idle ∧ error c' = Some (acq_message granted) ∧
   isRecording c' = isRecording (mounted ∅) ∧ timers c' = timers (mounted ∅) ∧
   db c' = db (mounted ∅)).
Proof. apply (start_enters_or_reports granted (mounted ∅)). reflexivity. Defined.

(** When the display was granted and [startRecording] fails afterwards,
    the granted stream stays in [streamRef] as it came: no track of it is
    stopped, and no timer that could lead to a cleanup is armed. *)
Theorem granted_stream_kept_on_failure (a : Acquisition) (c : Component) (s : MediaStream) :
  acq_display a = Some s → ¬ acquired a →
  streamRef (startRecording a c) = Some s ∧ timers (startRecording a c) = timers c.
Proof.
  intros Hs Hno. unfold startRecording, acquire_mic, acquired in *. rewrite Hs in *.
  cbn [negb includeMic set_streamRef set_currentRecordingIdRef set_chunksRef set_error].
  destruct (acq_isTypeSupported a (select_mimeType (acq_isTypeSupported a))) eqn:Hsup;
    cbn [negb].
  - destruct (getVideoTracks s) eqn:Ht.
    + by destruct (includeMic c), (acq_mic a).
    + exfalso. apply Hno. split; [|done]. exists s. split; [done|]. by rewrite Ht.
  - by destruct (includeMic c), (acq_mic a).
Qed.

Lemma granted_stream_kept_on_failure_witness :
  let a := mkAcquisition 0 (Some [mkTrack VideoTrack true]) None (λ _, false) "NotSupportedError" in
  streamRef (startRecording a (mounted ∅)) = Some [mkTrack VideoTrack true] ∧
  timers (startRecording a (mounted ∅)) = timers (mounted ∅).
Proof.
  intros a. apply granted_stream_kept_on_failure; [reflexivity|].
  intros [_ H]. discriminate H.
Defined.

(** What the microphone answers decides neither whether the session
    starts, nor the error shown, nor the timers armed, nor the screen
    stream held. *)
Theorem microphone_never_decides_start (a : Acquisition) (mic : option MediaStream)
    (c : Component) :
  let c1 := startRecording a c in
  let c2 := startRecording (with_mic mic a) c in
  phase c2 = phase c1 ∧ error c2 = error c1 ∧ isRecording c2 = isRecording c1 ∧
  timers c2 = timers c1 ∧ streamRef c2 = streamRef c1.
Proof.
  unfold startRecording, acquire_mic, with_mic, phase.
  cbn [acq_now acq_display acq_mic acq_isTypeSupported acq_message
       negb includeMic set_streamRef set_currentRecordingIdRef set_chunksRef set_error].
  destruct (acq_display a) as [s|]; [|done].
  destruct (negb _); [by destruct (includeMic c), (acq_mic a), mic|].
  destruct (getVideoTracks s); by destruct (includeMic c), (acq_mic a), mic.
Qed.

(** ** What the events of a session keep *)

Lemma stop_if_recording_held (c : Component) :
  held (stop_if_recording c) = held c ∧
  chunksRef (stop_if_recording c) = chunksRef c ∧
  recordingTime (stop_if_recording c) = recordingTime c.
Proof.
  unfold held, stop_if_recording.
  by destruct (mediaRecorderRef c) as [[[] ? ? ?]|] eqn:E; simpl; rewrite ?E.
Qed.

Lemma fire_held (c : Component) (t : Timer) :
  held (fire c t) = held c ∧ chunksRef (fire c t) = chunksRef c.
Proof.
  unfold fire. destruct (timer_kind t); [done|].
  by destruct (stop_if_recording_held c) as (-> & -> & _).
Qed.

Lemma foldl_fire_held (l : list Timer) (c : Component) :
  held (foldl fire c l) = held c ∧ chunksRef (foldl fire c l) = chunksRef c.
Proof.
  revert c. induction l as [|t l IH]; intros c; simpl; [done|].
  destruct (IH (fire c t)) as [-> ->]. apply fire_held.
Qed.

Lemma handle_held (c : Component) (e : event) : held (handle c e) = held c.
Proof.
  destruct e as [|data|]; simpl.
  - unfold advance1. by destruct (foldl_fire_held
      (List.filter (λ t, (timer_due t =? clock c + 1)%Z) (timers c))
      (set_window c (clock c + 1) (omap (rearm (clock c + 1)) (timers c)) (next_timer c)))
      as [-> _].
  - unfold ondataavailable. by destruct (0 <? blob_size data)%Z.
  - apply stop_if_recording_held.
Qed.

Lemma run_held (es : list event) (c : Component) : held (run es c) = held c.
Proof.
  revert c. induction es as [|e es IH]; intros c; [done|].
  change (run (e :: es) c) with (run es (handle c e)).
  by rewrite IH, handle_held.
Qed.

(** The kept slices pile up in the order they arrive. *)
Lemma run_chunks (es : list event) (c : Component) :
  chunksRef (run es c) = (chunksRef c ++ filter kept (slices es))%list.
Proof.
  revert c. induction es as [|e es IH]; intros c; [by rewrite app_nil_r|].
  change (run (e :: es) c) with (run es (handle c e)). rewrite IH.
  destruct e as [|data|]; cbn [handle slices omap list_omap].
  - unfold advance1. by destruct (foldl_fire_held
      (List.filter (λ t, (timer_due t =? clock c + 1)%Z) (timers c))
      (set_window c (clock c + 1) (omap (rearm (clock c + 1)) (timers c)) (next_timer c)))
      as [_ ->].
  - unfold ondataavailable, kept. rewrite filter_cons.
    destruct (0 <? blob_size data)%Z eqn:E.
    + rewrite decide_True by done. cbn [chunksRef set_chunksRef].
      by rewrite <- app_assoc.
    + rewrite decide_False by done. done.
  - unfold onended. by destruct (stop_if_recording_held c) as (_ & -> & _).
Qed.

(** A slice that is not kept has no byte. *)
Lemma concat_kept (l : list Blob) :
  concat (blob_bytes <$> filter kept l) = concat (blob_bytes <$> l).
Proof.
  induction l as [|b l IH]; [done|]. rewrite filter_cons.
  destruct (decide (kept b)) as [Hk|Hk]; cbn [fmap list_fmap concat]; rewrite IH; [done|].
  unfold kept in Hk. apply not_true_is_false, Z.ltb_ge in Hk.
  unfold blob_size in Hk. destruct (blob_bytes b); [done|simpl in Hk; lia].
Qed.

(** ** The seconds counter *)

Lemma next_whole_second (n : Z) :
  (0 ≤ n)%Z →
  (1000 * (n / 1000 + 1) = n + 1 → (n + 1) / 1000 = n / 1000 + 1)%Z ∧
  (1000 * (n / 1000 + 1) ≠ n + 1 → (n + 1) / 1000 = n / 1000)%Z.
Proof.
  intros Hn. pose proof (Z.div_mod n 1000 ltac:(lia)) as Hdm.
  pose proof (Z.mod_pos_bound n 1000 ltac:(lia)) as Hb. split; intros H.
  - symmetry. apply (Z.div_unique _ _ _ 0); lia.
  - symmetry. apply (Z.div_unique _ _ _ (n mod 1000 + 1)); lia.
Qed.

Lemma fire_auto_stop_recordingTime (c : Component) (t : Timer) :
  timer_kind t = AutoStopTimeout → recordingTime (fire c t) = recordingTime c.
Proof.
  intros H. unfold fire. rewrite H. by destruct (stop_if_recording_held c) as (_ & _ & ->).
Qed.

Lemma foldl_fire_auto_stop_recordingTime (l : list Timer) (c : Component) :
  Forall (λ t, timer_kind t = AutoStopTimeout) l →
  recordingTime (foldl fire c l) = recordingTime c.
Proof.
  revert c. induction l as [|t l IH]; intros c Hl; [done|].
  apply Forall_cons in Hl as [Ht Hl]. simpl.
  rewrite IH by done. by apply fire_auto_stop_recordingTime.
Qed.

Lemma stdlib_filter_Forall {A : Type} (P : A → Prop) (f : A → bool) (l : list A) :
  Forall P l → Forall P (List.filter f l).
Proof.
  rewrite !Forall_forall. intros H x Hx%list_elem_of_In%filter_In.
  apply H, list_elem_of_In, Hx.
Qed.

Lemma rearm_auto_stop (now : Z) (j : positive) (rest : list Timer) :
  Forall (λ t, timer_kind t = AutoStopTimeout ∧ timer_id t = j) rest →
  Forall (λ t, timer_kind t = AutoStopTimeout ∧ timer_id t = j) (omap (rearm now) rest).
Proof.
  rewrite !Forall_forall. intros H t' (t & Ht & Hre)%list_elem_of_omap.
  destruct (H t Ht) as [Hk Hid]. unfold rearm in Hre. rewrite Hk in Hre.
  destruct (timer_due t =? now)%Z; [done|]. injection Hre as <-. done.
Qed.

Lemma advance1_counts_the_tick (c : Component) (i : positive) (due : Z)
    (rest : list Timer) :
  timers c = mkTimer i TickInterval due :: rest →
  Forall (λ t, timer_kind t = AutoStopTimeout) rest →
  recordingTime (advance1 c)
  = (recordingTime c + if (due =? clock c + 1)%Z then 1 else 0)%Z.
Proof.
  intros Hts Hrest. unfold advance1. rewrite Hts. cbn [List.filter timer_due].
  destruct (due =? clock c + 1)%Z; cbn [foldl];
    rewrite foldl_fire_auto_stop_recordingTime by (by apply stdlib_filter_Forall).
  - reflexivity.
  - cbn. lia.
Qed.

Lemma advance1_ticking t0 r0 i j n (c : Component) :
  ticking t0 r0 i j n c → ticking t0 r0 i j (n + 1) (advance1 c).
Proof.
  intros (Hn & Hclk & Hrt & Hi & Hj & rest & Hts & Hrest).
  pose proof (next_whole_second n Hn) as [Hyes Hno].
  assert (Hauto : Forall (λ t, timer_kind t = AutoStopTimeout) rest).
  { eapply Forall_impl; [exact Hrest|]. by intros ? [? _]. }
  pose proof (handle_held c Millisecond) as Hh. cbn [handle] in Hh.
  unfold held in Hh. injection Hh as _ _ Hi' Hj'.
  unfold ticking. rewrite advance1_clock, Hi', Hj', advance1_timers, Hts.
  rewrite (advance1_counts_the_tick c i _ rest Hts Hauto).
  cbn [omap list_omap]. unfold rearm at 1. cbn [timer_due timer_kind timer_id].
  split; [lia|]. split; [lia|].
  destruct (Z.eqb_spec (t0 + 1000 * (n / 1000 + 1)) (clock c + 1)) as [Heq|Hne].
  - rewrite Hyes by lia. split; [lia|]. do 2 (split; [done|]).
    eexists. split; [|by apply rearm_auto_stop]. do 2 f_equal. lia.
  - rewrite Hno by lia. split; [lia|]. do 2 (split; [done|]).
    eexists. split; [reflexivity|by apply rearm_auto_stop].
Qed.

Lemma handle_ticking t0 r0 i j n (c : Component) (e : event) :
  ticking t0 r0 i j n c → ticking t0 r0 i j (n + elapsed [e]) (handle c e).
Proof.
  intros H. destruct e as [|data|]; cbn [handle elapsed].
  - by apply advance1_ticking.
  - rewrite Z.add_0_r. unfold ondataavailable. by destruct (0 <? blob_size data)%Z.
  - rewrite Z.add_0_r. destruct H as (Hn & Hclk & Hrt & Hi & Hj & rest & Hts & Hrest).
    destruct (stop_if_recording_held c) as (Hh & _ & Hr).
    destruct (onended_window c) as [Hc Ht].
    unfold held in Hh. injection Hh as _ _ Hi' Hj'.
    unfold ticking, onended in *. rewrite Hc, Hr, Hi', Hj', Ht. eauto 10.
Qed.

Lemma run_ticking t0 r0 i j n (es : list event) (c : Component) :
  ticking t0 r0 i j n c → ticking t0 r0 i j (n + elapsed es) (run es c).
Proof.
  revert n c. induction es as [|e es IH]; intros n c H; [by rewrite Z.add_0_r|].
  change (run (e :: es) c) with (run es (handle c e)).
  replace (n + elapsed (e :: es))%Z with (n + elapsed [e] + elapsed es)%Z
    by (destruct e; cbn [elapsed]; lia).
  by apply IH, handle_ticking.
Qed.

(** Right after a [startRecording] that went through, on a window with no
    timer pending. *)
Lemma start_ticking (a : Acquisition) (c : Component) :
  acquired a → timers c = [] →
  ticking (clock c) (recordingTime c) (next_timer c) (Pos.succ (next_timer c)) 0
    (startRecording a c).
Proof.
  intros [(s & Hs & Hv) Hsup] Hts.
  unfold startRecording, acquire_mic. rewrite Hs, Hsup.
  cbn [negb includeMic set_streamRef set_currentRecordingIdRef set_chunksRef set_error].
  destruct (getVideoTracks s); [done|].
  unfold ticking. change (0 / 1000)%Z with 0%Z.
  destruct (includeMic c), (acq_mic a); cbn; rewrite Hts;
    (split; [done|]); (split; [lia|]); (split; [lia|]); do 2 (split; [done|]);
    (eexists; split; [reflexivity|]); by repeat constructor.
Qed.

(** On a window with no timer pending, the counter of a session that
    went through [startRecording] shows, after any events short of the
    [stop] handler, the whole seconds that have passed since the start. *)
Theorem counter_shows_elapsed_seconds (a : Acquisition) (c : Component) (es : list event) :
  acquired a → timers c = [] →
  recordingTime (run es (startRecording a c)) = (recordingTime c + elapsed es / 1000)%Z.
Proof.
  intros Hacq Hts.
  pose proof (run_ticking _ _ _ _ 0 es _ (start_ticking a c Hacq Hts)) as (_ & _ & H & _).
  exact H.
Qed.

Lemma granted_acquired : acquired granted.
Proof. split; [|reflexivity]. eexists. split; [reflexivity|discriminate]. Qed.

Lemma counter_shows_elapsed_seconds_witness :
  recordingTime (run [Millisecond; DataAvailable (mkBlob [] ""); Millisecond]
                   (startRecording granted (mounted ∅)))
  = (recordingTime (mounted ∅)
     + elapsed [Millisecond; DataAvailable (mkBlob [] ""); Millisecond] / 1000)%Z.
Proof.
  apply counter_shows_elapsed_seconds; [|reflexivity].
  split; [|reflexivity]. eexists. split; [reflexivity|discriminate].
Defined.

(** ** A whole session *)

(** What a [startRecording] that went through leaves. *)
Lemma start_session (a : Acquisition) (c : Component) :
  acquired a →
  mediaRecorderRef (startRecording a c)
  = Some (mkRecorder recording false (select_mimeType (acq_isTypeSupported a))
            (recordingTime c)) ∧
  currentRecordingIdRef (startRecording a c) = Some (generateRecordingId (acq_now a)) ∧
  chunksRef (startRecording a c) = [] ∧ db (startRecording a c) = db c.
Proof.
  intros [(s & Hs & Hv) Hsup].
  unfold startRecording, acquire_mic. rewrite Hs, Hsup.
  cbn [negb includeMic set_streamRef set_currentRecordingIdRef set_chunksRef set_error].
  destruct (getVideoTracks s); [done|].
  by destruct (includeMic c), (acq_mic a).
Qed.

(** The component when the user, or the timeout, or the browser has
    stopped the session and the [stop] event waits. *)
Lemma session_before_handler (a : Acquisition) (c : Component) (es : list event) :
  acquired a →
  let c' := stopRecording (run es (startRecording a c)) in
  mediaRecorderRef c'
  = Some (mkRecorder inactive true (select_mimeType (acq_isTypeSupported a))
            (recordingTime c)) ∧
  currentRecordingIdRef c' = Some (generateRecordingId (acq_now a)) ∧
  chunksRef c' = filter kept (slices es) ∧ db c' = db c.
Proof.
  intros Hacq c'. destruct (start_session a c Hacq) as (Hr & Hid & Hch & Hdb).
  assert (Hfin : phase c' = Finalizing).
  { apply stop_if_recording_finalizes, run_in_session. left. unfold phase. by rewrite Hr. }
  assert (Hcl : closure_of c' = closure_of (startRecording a c)).
  { unfold c', stopRecording. by rewrite stop_if_recording_closure, run_closure. }
  assert (Hh : held c' = held (startRecording a c)).
  { unfold c', stopRecording.
    destruct (stop_if_recording_held (run es (startRecording a c))) as (-> & _ & _).
    apply run_held. }
  assert (Hc : chunksRef c' = filter kept (slices es)).
  { unfold c', stopRecording.
    destruct (stop_if_recording_held (run es (startRecording a c))) as (_ & -> & _).
    by rewrite run_chunks, Hch. }
  unfold closure_of, held in *. rewrite Hr, Hid, Hdb in *.
  injection Hcl as Hrt ->. injection Hh as Hmime -> _ _.
  unfold phase in Hfin.
  destruct (mediaRecorderRef c') as [[[] [] mime rt]|]; try done.
  simpl in Hrt, Hmime. by simplify_eq.
Qed.

Lemma generated_id_truthy (now : Z) :
  truthy_id (Some (generateRecordingId now)) = Some (generateRecordingId now).
Proof. reflexivity. Qed.

(** The store after the [stop] handler of a waiting recorder: what
    [saveVideo] made of it, whether it resolved or not. *)
Lemma deliver_stop_db (f : Finalization) (c : Component) (r : MediaRecorder) (id : string) :
  mediaRecorderRef c = Some r → rec_stop_queued r = true →
  truthy_id (currentRecordingIdRef c) = Some id →
  db (deliver_stop f c).2
  = (saveVideo (fin_save f) (fin_now f) (fin_defaultName f) id
       (assemble (chunksRef c) (rec_mimeType r)) (onstop_recordingTime r) None (db c)).2.
Proof.
  intros Hr Hq Hid. unfold deliver_stop. rewrite Hr, Hq. unfold onstop.
  cbn [currentRecordingIdRef chunksRef db set_mediaRecorderRef rec_mimeType
       onstop_recordingTime]. rewrite Hid.
  destruct (fin_save f); cbn [saveVideo fst snd]; [|done..].
  by rewrite cleanup_db, playRecording_db, loadRecordings_db.
Qed.

(** The payload a session stores is the slices the recorder delivered,
    joined in the order they came, under the container chosen at start. *)
Theorem session_stores_slices_in_order (a : Acquisition) (c : Component)
    (es : list event) (f : Finalization) :
  acquired a → fin_save f = IdbOk →
  getVideo IdbOk (generateRecordingId (acq_now a))
    (db (deliver_stop f (stopRecording (run es (startRecording a c)))).2)
  = Resolved (Some (VBlob (mkBlob (concat (blob_bytes <$> slices es))
                             (select_mimeType (acq_isTypeSupported a))))).
Proof.
  intros Hacq Hok.
  destruct (session_before_handler a c es Hacq) as (Hr & Hid & Hch & Hdb).
  rewrite (deliver_stop_db f _ _ (generateRecordingId (acq_now a)) Hr eq_refl)
    by (by rewrite Hid).
  rewrite Hok, Hch. simpl.
  rewrite lookup_insert_ne by apply metaKey_ne. rewrite lookup_insert_eq.
  unfold assemble. by rewrite concat_kept.
Qed.

Lemma session_stores_slices_in_order_witness :
  let es := [DataAvailable (mkBlob [Byte.x1a; Byte.x45] "video/webm"); Millisecond;
             DataAvailable (mkBlob [] "video/webm");
             DataAvailable (mkBlob [Byte.xdf] "video/webm")] in
  getVideo IdbOk (generateRecordingId (acq_now granted))
    (db (deliver_stop store_accepts
           (stopRecording (run es (startRecording granted (mounted ∅))))).2)
  = Resolved (Some (VBlob (mkBlob (concat (blob_bytes <$> slices es))
                             (select_mimeType (acq_isTypeSupported granted))))).
Proof.
  intros es. apply session_stores_slices_in_order; [|reflexivity].
  split; [|reflexivity]. eexists. split; [reflexivity|discriminate].
Defined.

(** Whatever the platform answers to the handler, a session started on a
    store that plain ids produced leaves such a store, and so one where
    every payload has its metadata record and every record its payload. *)
Theorem session_keeps_store_paired (a : Acquisition) (c : Component)
    (es : list event) (f : Finalization) :
  acquired a → reachable_with plain_id (db c) →
  let st := db (deliver_stop f (stopRecording (run es (startRecording a c)))).2 in
  reachable_with plain_id st ∧ paired st.
Proof.
  intros Hacq Hreach st.
  assert (H : reachable_with plain_id st); [|split; [done|]].
  - subst st. destruct (session_before_handler a c es Hacq) as (Hr & Hid & Hch & Hdb).
    rewrite (deliver_stop_db f _ _ (generateRecordingId (acq_now a)) Hr eq_refl)
      by (by rewrite Hid).
    rewrite Hdb.
    match goal with
    | |- reachable_with _ (saveVideo ?env ?now ?dflt ?id ?blob ?dur ?name _).2 =>
        apply (reach_step _ (OpSave env now dflt id blob dur name)); [done|]
    end.
    apply generateRecordingId_plain.
  - by apply plain_store_paired, reachable_plain_store.
Qed.

Lemma session_keeps_store_paired_witness :
  let st := db (deliver_stop store_refuses
                  (stopRecording (run [Millisecond] (startRecording granted (mounted ∅))))).2 in
  reachable_with plain_id st ∧ paired st.
Proof.
  apply session_keeps_store_paired; [|apply reach_empty].
  split; [|reflexivity]. eexists. split; [reflexivity|discriminate].
Defined.

(** ** After the handler *)

Lemma cleanup_frame (c : Component) :
  selectedRecording (cleanup c) = selectedRecording c ∧
  videoUrl (cleanup c) = videoUrl c ∧ recordings (cleanup c) = recordings c ∧
  mediaRecorderRef (cleanup c) = mediaRecorderRef c ∧ isRecording (cleanup c) = false.
Proof.
  unfold cleanup.
  destruct (timerRef c) as [i|] eqn:Ei, (autoStopTimerRef c) as [j|] eqn:Ej;
    by repeat (cbn; rewrite ?Ei, ?Ej).
Qed.

Lemma cleanup_timers (c : Component) (i j : positive) :
  timerRef c = Some i → autoStopTimerRef c = Some j →
  timers (cleanup c)
  = List.filter (λ t, negb (Pos.eqb (timer_id t) j))
      (List.filter (λ t, negb (Pos.eqb (timer_id t) i)) (timers c)) ∧
  recordingTime (cleanup c) = 0%Z.
Proof. intros Hi Hj. unfold cleanup. by repeat (cbn; rewrite ?Hi, ?Hj). Qed.

(** The handler of a waiting recorder when the save resolves. *)
Lemma deliver_stop_resolved (f : Finalization) (c : Component) (r : MediaRecorder)
    (id : string) :
  mediaRecorderRef c = Some r → rec_stop_queued r = true →
  truthy_id (currentRecordingIdRef c) = Some id → fin_save f = IdbOk →
  deliver_stop f c
  = (Resolved tt,
     cleanup (playRecording (fin_play f) id (loadRecordings (fin_list f)
       (set_db (set_mediaRecorderRef c
                  (Some (mkRecorder (rec_state r) false (rec_mimeType r)
                                    (onstop_recordingTime r))))
          (saveVideo IdbOk (fin_now f) (fin_defaultName f) id
             (assemble (chunksRef c) (rec_mimeType r)) (onstop_recordingTime r) None
             (db c)).2)))).
Proof.
  intros Hr Hq Hid Hok. unfold deliver_stop. rewrite Hr, Hq. unfold onstop.
  cbn [currentRecordingIdRef chunksRef db set_mediaRecorderRef rec_mimeType
       onstop_recordingTime]. by rewrite Hid, Hok.
Qed.

(** When every call of the handler succeeds, the handler resolves, the
    [stop] event is consumed, the component no longer shows a recording in
    progress, the list it shows is the listing of the store and holds the
    new record, and the player is loaded with the payload just saved. *)
Theorem handler_shows_the_new_recording (f : Finalization) (c : Component)
    (r : MediaRecorder) (id : string) :
  mediaRecorderRef c = Some r → rec_stop_queued r = true →
  truthy_id (currentRecordingIdRef c) = Some id → all_ok f →
  let c' := (deliver_stop f c).2 in
  let payload := assemble (chunksRef c) (rec_mimeType r) in
  (deliver_stop f c).1 = Resolved tt ∧ phase c' ≠ Finalizing ∧ isRecording c' = false ∧
  selectedRecording c' = Some id ∧ videoUrl c' = Some payload ∧
  getAllRecordings IdbOk (db c') = Resolved (recordings c') ∧
  ∃ m, VMeta m ∈ recordings c' ∧ meta_id m = id ∧ meta_size m = blob_size payload.
Proof.
  intros Hr Hq Hid (Hsave & Hlist & Hplay) c' payload. subst c'.
  rewrite (deliver_stop_resolved f c r id Hr Hq Hid Hsave), Hlist, Hplay.
  cbn [fst snd]. rewrite cleanup_db.
  match goal with |- context [cleanup ?c3] =>
    destruct (cleanup_frame c3) as (Hsel & Hurl & Hrecs & Hrec & Hisrec)
  end.
  unfold phase. rewrite Hsel, Hurl, Hrecs, Hrec, Hisrec. clear Hsel Hurl Hrecs Hrec Hisrec.
  unfold playRecording, loadRecordings.
  cbn [getVideo getAllRecordings db set_db set_recordings saveVideo snd].
  rewrite lookup_insert_ne by apply metaKey_ne. rewrite lookup_insert_eq.
  cbn. split; [reflexivity|]. split; [by destruct (rec_state r)|].
  do 4 (split; [reflexivity|]).
  eexists. split.
  - apply elem_of_listed. exists (metaKey id).
    split; [apply endsWith_metaKey|apply lookup_insert_eq].
  - split; reflexivity.
Qed.

Lemma handler_shows_the_new_recording_witness :
  let c' := (deliver_stop store_accepts five_seconds).2 in
  isRecording c' = false ∧ selectedRecording c' = Some "recording-1700000000000" ∧
  getAllRecordings IdbOk (db c') = Resolved (recordings c').
Proof.
  assert (Hr : mediaRecorderRef five_seconds
               = Some (mkRecorder inactive true "video/webm;codecs=vp9" 0))
    by (vm_compute; reflexivity).
  assert (Hid : truthy_id (currentRecordingIdRef five_seconds)
                = Some "recording-1700000000000") by (vm_compute; reflexivity).
  destruct (handler_shows_the_new_recording store_accepts five_seconds _ _ Hr eq_refl Hid
              (conj eq_refl (conj eq_refl eq_refl)))
    as (_ & _ & H1 & H2 & _ & H3 & _).
  auto.
Defined.

Lemma loadRecordings_window (env : idb_outcome) (c : Component) :
  timers (loadRecordings env c) = timers c ∧
  timerRef (loadRecordings env c) = timerRef c ∧
  autoStopTimerRef (loadRecordings env c) = autoStopTimerRef c.
Proof. unfold loadRecordings. by destruct (getAllRecordings env (db c)). Qed.

Lemma playRecording_window (env : idb_outcome) (id : string) (c : Component) :
  timers (playRecording env id c) = timers c ∧
  timerRef (playRecording env id c) = timerRef c ∧
  autoStopTimerRef (playRecording env id c) = autoStopTimerRef c.
Proof. unfold playRecording. by destruct (getVideo env id (db c)) as [[[]|]|]. Qed.

Lemma filter_out_all (i j : positive) (due : Z) (rest : list Timer) :
  Forall (λ t, timer_kind t = AutoStopTimeout ∧ timer_id t = j) rest →
  List.filter (λ t, negb (Pos.eqb (timer_id t) j))
    (List.filter (λ t, negb (Pos.eqb (timer_id t) i))
       (mkTimer i TickInterval due :: rest)) = [].
Proof.
  intros Hrest. cbn [List.filter timer_id]. rewrite Pos.eqb_refl. cbn [negb].
  induction Hrest as [|t rest [_ Ht] _ IH]; [done|].
  cbn [List.filter]. destruct (negb (Pos.eqb (timer_id t) i)); [|exact IH].
  cbn [List.filter]. rewrite Ht, Pos.eqb_refl. exact IH.
Qed.

Lemma advance1_without_timers (c : Component) :
  timers c = [] → advance1 c = set_window c (clock c + 1) [] (next_timer c).
Proof. intros H. unfold advance1. by rewrite H. Qed.

Lemma elapse_without_timers (n : nat) (c : Component) :
  timers c = [] →
  timers (Nat.iter n advance1 c) = [] ∧
  recordingTime (Nat.iter n advance1 c) = recordingTime c.
Proof.
  intros Hts. induction n as [|n [IHt IHr]]; [done|].
  rewrite !Nat.iter_succ. by rewrite (advance1_without_timers _ IHt).
Qed.

Lemma after_save_window (env1 env2 : idb_outcome) (id : string) (c : Component)
    (r : option MediaRecorder) (st : Store) :
  let c3 := playRecording env2 id (loadRecordings env1 (set_db (set_mediaRecorderRef c r) st)) in
  timers c3 = timers c ∧ timerRef c3 = timerRef c ∧
  autoStopTimerRef c3 = autoStopTimerRef c.
Proof.
  intros c3. subst c3.
  destruct (playRecording_window env2 id
              (loadRecordings env1 (set_db (set_mediaRecorderRef c r) st)))
    as (-> & -> & ->).
  by destruct (loadRecordings_window env1 (set_db (set_mediaRecorderRef c r) st))
    as (-> & -> & ->).
Qed.

(** A session that started with no timer pending and whose save resolved
    leaves no timer behind: the counter is at zero and stays there
    however much time passes. *)
Theorem finished_session_leaves_no_timer (a : Acquisition) (c : Component)
    (es : list event) (f : Finalization) :
  acquired a → timers c = [] → fin_save f = IdbOk →
  let c' := (deliver_stop f (stopRecording (run es (startRecording a c)))).2 in
  timers c' = [] ∧ ∀ ms, recordingTime (elapse ms c') = 0%Z.
Proof.
  intros Hacq Hts Hok c'.
  assert (Hnone : timers c' = [] ∧ recordingTime c' = 0%Z).
  { subst c'.
    destruct (session_before_handler a c es Hacq) as (Hr & Hid & _ & _).
    pose proof (run_ticking _ _ _ _ 0 es _ (start_ticking a c Hacq Hts))
      as (_ & _ & _ & Hi & Hj & rest & Htimers & Hrest).
    set (c1 := run es (startRecording a c)) in *.
    destruct (stop_if_recording_held c1) as (Hh & _ & _).
    destruct (onended_window c1) as [_ Hw].
    unfold held in Hh. injection Hh as _ _ Hi' Hj'.
    unfold onended in Hw. fold (stopRecording c1) in Hi', Hj', Hw.
    rewrite (deliver_stop_resolved f _ _ (generateRecordingId (acq_now a)) Hr eq_refl)
      by (by rewrite ?Hid).
    cbn [snd].
    match goal with |- context [cleanup (playRecording ?e2 ?i (loadRecordings ?e1
                                  (set_db (set_mediaRecorderRef ?c0 ?r) ?st)))] =>
      destruct (after_save_window e1 e2 i c0 r st) as (Ht3 & Hi3 & Hj3);
      destruct (cleanup_timers (playRecording e2 i (loadRecordings e1
                                  (set_db (set_mediaRecorderRef c0 r) st)))
                  (next_timer c) (Pos.succ (next_timer c))) as [-> ->];
        [by rewrite Hi3, Hi', Hi|by rewrite Hj3, Hj', Hj|];
      rewrite Ht3, Hw, Htimers
    end.
    split; [|done]. by apply filter_out_all. }
  destruct Hnone as [Hnone Hzero]. split; [done|]. intros ms. unfold elapse.
  destruct (elapse_without_timers (Z.to_nat ms) c' Hnone) as [_ ->]. exact Hzero.
Qed.

Lemma finished_session_leaves_no_timer_witness :
  let c' := (deliver_stop store_accepts
               (stopRecording (run [Millisecond] (startRecording granted (mounted ∅))))).2 in
  timers c' = [] ∧ ∀ ms, recordingTime (elapse ms c') = 0%Z.
Proof.
  apply finished_session_leaves_no_timer; [|reflexivity|reflexivity].
  split; [|reflexivity]. eexists. split; [reflexivity|discriminate].
Defined.

(** ** The delete button *)

(** With a reachable store and a plain id, a deletion that succeeds
    leaves no payload under the id, shows the listing of the store with
    that record gone and every other record kept, and clears the player
    exactly when it showed the deleted recording. A deletion the platform
    rejects changes nothing in the component. *)
Theorem delete_button_removes_the_recording (id : string) (c : Component) :
  reachable (db c) → plain_id id →
  let c' := handleDelete IdbOk IdbOk id c in
  getVideo IdbOk id (db c') = Resolved None ∧
  getAllRecordings IdbOk (db c') = Resolved (recordings c') ∧
  (∀ m, VMeta m ∈ recordings c' ↔
        VMeta m ∈ array_sort SortCompare (metaValues (db c)) ∧ meta_id m ≠ id) ∧
  (selectedRecording c = Some id → selectedRecording c' = None ∧ videoUrl c' = None) ∧
  (selectedRecording c ≠ Some id →
     selectedRecording c' = selectedRecording c ∧ videoUrl c' = videoUrl c) ∧
  handleDelete IdbRequestError IdbOk id c = c ∧
  handleDelete IdbOpenError IdbOk id c = c.
Proof.
  intros Hr Hid c'. subst c'. unfold handleDelete, loadRecordings.
  cbn [deleteVideo getAllRecordings db set_db selectedRecording].
  assert (Hgone : delete (metaKey id) (delete id (db c)) !! id = None).
  { rewrite lookup_delete_ne by apply metaKey_ne. apply lookup_delete_eq. }
  destruct (decide (selectedRecording c = Some id)) as [Hsel|Hsel]; cbn; rewrite Hgone;
    (split; [done|]); (split; [done|]);
    (split; [intros m; by apply StoreLaws.listed_after_delete;
                             [apply reachable_well_keyed|]|]);
    done.
Qed.

Lemma finished_five_seconds_db :
  db (deliver_stop store_accepts five_seconds).2
  = run_op (OpSave IdbOk 1700000005000 "Recording" "recording-1700000000000"
              (mkBlob [Byte.x1a; Byte.x45; Byte.xdf; Byte.xa3] "video/webm;codecs=vp9")
              0 None) ∅.
Proof. vm_compute. reflexivity. Qed.

Lemma finished_five_seconds_reachable :
  reachable (db (deliver_stop store_accepts five_seconds).2).
Proof.
  rewrite finished_five_seconds_db. apply reach_step; [apply reach_empty|exact I].
Qed.

Lemma delete_button_removes_the_recording_witness :
  let c := (deliver_stop store_accepts five_seconds).2 in
  let c' := handleDelete IdbOk IdbOk "recording-1700000000000" c in
  getVideo IdbOk "recording-1700000000000" (db c') = Resolved None ∧
  (selectedRecording c = Some "recording-1700000000000" →
   selectedRecording c' = None ∧ videoUrl c' = None).
Proof.
  intros c.
  destruct (delete_button_removes_the_recording "recording-1700000000000" c
              finished_five_seconds_reachable eq_refl)
    as (Hget & _ & _ & Hsel & _).
  split; [exact Hget|exact Hsel].
Defined.

(** ** The rename box *)

(** Renaming an existing record through the box closes the box, shows the
    list as it was with that one name replaced and in the same order, and
    leaves the payload alone. *)
Theorem rename_box_shows_the_new_name (trim : string → string) (e : Editing)
    (c : Component) (id : string) (m : RecordingMeta) :
  reachable (db c) → truthy_id (editingId e) = Some id →
  trim (editingName e) ≠ "" → db c !! metaKey id = Some (VMeta m) →
  let r := saveRename trim IdbOk IdbOk e c in
  editingId r.1 = None ∧
  recordings r.2 = rename_entry id (trim (editingName e))
                     <$> array_sort SortCompare (metaValues (db c)) ∧
  db r.2 !! id = db c !! id.
Proof.
  intros Hr Hid Hname Hm r. subst r. unfold saveRename. rewrite Hid.
  rewrite decide_False by done. unfold loadRecordings.
  cbn [updateRecordingMeta]. rewrite Hm.
  cbn [fst snd getAllRecordings db set_db recordings set_recordings editingId spread
       upd_name].
  split; [done|]. split.
  - by apply StoreLaws.listing_after_rename; [apply reachable_well_keyed|].
  - apply lookup_insert_ne, metaKey_ne.
Qed.

Lemma rename_box_shows_the_new_name_witness :
  let c := (deliver_stop store_accepts five_seconds).2 in
  let e := mkEditing (Some "recording-1700000000000") " Demo " in
  let r := saveRename (λ _, "Demo") IdbOk IdbOk e c in
  editingId r.1 = None ∧
  recordings r.2 = rename_entry "recording-1700000000000" "Demo"
                     <$> array_sort SortCompare (metaValues (db c)) ∧
  db r.2 !! "recording-1700000000000" = db c !! "recording-1700000000000".
Proof.
  intros c e.
  apply (rename_box_shows_the_new_name (λ _, "Demo") e c "recording-1700000000000"
           (mkMeta "recording-1700000000000" "Recording" 1700000005000 0 4)
           finished_five_seconds_reachable eq_refl);
    [discriminate|vm_compute; reflexivity].
Defined.

(** Opening the box on a stored record and confirming the name as it
    stands (a name that trimming leaves alone) leaves the store exactly as
    it was. *)
Theorem rename_box_unchanged_name_changes_nothing (trim : string → string)
    (env_list : idb_outcome) (e : Editing) (c : Component) (m : RecordingMeta) :
  db c !! metaKey (meta_id m) = Some (VMeta m) →
  trim (meta_name m) = meta_name m →
  db (saveRename trim IdbOk env_list (startEditing m e) c).2 = db c.
Proof.
  intros Hm Htrim. unfold saveRename, startEditing. cbn [editingId editingName].
  destruct (truthy_id (Some (meta_id m))) as [id|] eqn:Hid; [|done].
  assert (id = meta_id m) as ->.
  { unfold truthy_id in Hid. destruct (meta_id m) as [|? ?]; [done|by injection Hid]. }
  rewrite Htrim. destruct (decide (meta_name m = "")); [done|].
  cbn [updateRecordingMeta]. rewrite Hm. cbn [snd spread upd_name].
  rewrite loadRecordings_db. cbn [db set_db].
  apply insert_id. rewrite Hm. by destruct m.
Qed.

Lemma rename_box_unchanged_name_changes_nothing_witness :
  let c := (deliver_stop store_accepts five_seconds).2 in
  let m := mkMeta "recording-1700000000000" "Recording" 1700000005000 0 4 in
  db (saveRename (λ s, s) IdbOk IdbOk (startEditing m (mkEditing None "")) c).2 = db c.
Proof.
  intros c m.
  apply (rename_box_unchanged_name_changes_nothing (λ s, s) IdbOk (mkEditing None "") c m);
    [vm_compute; reflexivity|reflexivity].
Defined.

(** When no record is being edited, or the trimmed name is empty, or the
    platform rejects the update, the box closes and the component, its
    store and its list included, is as it was. *)
Theorem rename_box_blank_or_rejected_changes_nothing (trim : string → string)
    (env_update env_list : idb_outcome) (e : Editing) (c : Component) :
  truthy_id (editingId e) = None ∨ trim (editingName e) = "" ∨ env_update ≠ IdbOk →
  saveRename trim env_update env_list e c = (mkEditing None (editingName e), c).
Proof.
  intros H. unfold saveRename.
  destruct (truthy_id (editingId e)) as [id|]; [|done].
  destruct (decide (trim (editingName e) = "")) as [|Hname]; [done|].
  destruct H as [H|[H|H]]; [done..|]. by destruct env_update.
Qed.

Lemma rename_box_blank_or_rejected_changes_nothing_witness :
  saveRename (λ _, "") IdbOk IdbOk (mkEditing (Some "r1") "   ") (mounted ∅)
  = (mkEditing None "   ", mounted ∅).
Proof.
  apply rename_box_blank_or_rejected_changes_nothing. right. left. reflexivity.
Defined.

End SessionLaws.

(** * Formatting durations *)

Module FormatLaws.
Import IndexedDB ScreenRecorder StoreTheory CaptureTheory.

Lemma string_of_uint_lacks_colon (d : Decimal.uint) :
  lacks ":"%char (NilEmpty.string_of_uint d) = true.
Proof. induction d; simpl; auto. Qed.

Lemma toString_lacks_colon (n : Z) : lacks ":"%char (toString n) = true.
Proof.
  unfold toString. destruct (Z.to_int n); simpl; apply string_of_uint_lacks_colon.
Qed.

Lemma padStart2_lacks_colon (s : string) :
  lacks ":"%char s = true → lacks ":"%char (padStart2 s) = true.
Proof.
  intros H. unfold padStart2. destruct (String.length s) as [|[|]]; [done| |done].
  by rewrite lacks_append, H.
Qed.

(** Two strings without a colon, each followed by a colon and a rest,
    agree only if both parts agree. *)
Lemma split_at_colon (s1 s2 t1 t2 : string) :
  lacks ":"%char s1 = true → lacks ":"%char s2 = true →
  s1 +:+ ":" +:+ t1 = s2 +:+ ":" +:+ t2 → s1 = s2 ∧ t1 = t2.
Proof.
  revert s2. induction s1 as [|x s1 IH]; intros [|y s2] H1 H2 H.
  - by injection H.
  - rewrite append_cons in H. injection H as <- _. by simpl in H2.
  - rewrite append_cons in H. injection H as -> _. by simpl in H1.
  - rewrite !append_cons in H. injection H as -> H.
    simpl in H1, H2. apply andb_true_iff in H1 as [_ H1], H2 as [_ H2].
    destruct (IH _ H1 H2 H) as [-> ->]. done.
Qed.

(** Reading back the decimal form of an integer. *)
Lemma read_toString (n : Z) :
  Z.of_int <$> NilEmpty.int_of_string (toString n) = Some n.
Proof. unfold toString. by rewrite NilEmpty.isi; simpl; rewrite DecimalZ.of_to. Qed.

(** Padding puts zeros in front only, so the number reads the same. *)
Lemma read_padded (n : Z) :
  (0 ≤ n)%Z → Z.of_int <$> NilEmpty.int_of_string (padStart2 (toString n)) = Some n.
Proof.
  intros Hn. pose proof (read_toString n) as Hread. unfold padStart2.
  destruct (toString n) as [|ch [|ch' rest]] eqn:E; cbn [String.length]; [| |done].
  - simpl in Hread. injection Hread as <-. vm_compute in E. discriminate E.
  - change ("0" +:+ String ch "") with (String "0" (String ch "")).
    unfold NilEmpty.int_of_string in *.
    change (Ascii.eqb "0" "-") with false. cbv iota.
    destruct (Ascii.eqb ch "-") eqn:Hch.
    + apply Ascii.eqb_eq in Hch as ->. simpl in Hread. injection Hread as <-.
      vm_compute in E. discriminate E.
    + cbn [NilEmpty.uint_of_string] in *.
      destruct (uint_of_char ch (Some Decimal.Nil)) as [d|]; simpl in *; [|done].
      injection Hread as <-. reflexivity.
Qed.

Lemma padded_inj (a b : Z) :
  (0 ≤ a)%Z → (0 ≤ b)%Z → padStart2 (toString a) = padStart2 (toString b) → a = b.
Proof.
  intros Ha Hb H. pose proof (read_padded a Ha) as Hra.
  rewrite H, (read_padded b Hb) in Hra. by injection Hra.
Qed.

(** Two different durations never show as the same text, in either
    component: [formatDuration] and [formatTime] are one-to-one on the
    seconds a recording can last. *)
Theorem durations_show_differently (a b : Z) :
  (0 ≤ a)%Z → (0 ≤ b)%Z →
  (formatDuration a = formatDuration b → a = b) ∧
  (formatTime a = formatTime b → a = b).
Proof.
  intros Ha Hb.
  assert (Hgo : (a / 60 = b / 60 → Z.rem a 60 = Z.rem b 60 → a = b)%Z).
  { intros Hq Hr. rewrite !Z.rem_mod_nonneg in Hr by lia.
    rewrite (Z.div_mod a 60), (Z.div_mod b 60) by lia. by rewrite Hq, Hr. }
  pose proof (Z.rem_nonneg a 60 ltac:(lia) Ha) as Hra.
  pose proof (Z.rem_nonneg b 60 ltac:(lia) Hb) as Hrb.
  assert (Hqa : (0 ≤ a / 60)%Z) by (apply Z.div_pos; lia).
  assert (Hqb : (0 ≤ b / 60)%Z) by (apply Z.div_pos; lia).
  split; intros H.
  - apply split_at_colon in H as [Hm Hs]; try apply toString_lacks_colon.
    apply Hgo; [by apply SessionLaws.toString_inj|by apply padded_inj].
  - apply split_at_colon in H as [Hm Hs];
      try apply padStart2_lacks_colon, toString_lacks_colon.
    apply Hgo; by apply padded_inj.
Qed.

Lemma durations_show_differently_witness :
  (formatDuration 65 = formatDuration 65 → 65 = 65)%Z ∧
  (formatTime 65 = formatTime 65 → 65 = 65)%Z.
Proof. apply durations_show_differently; lia. Defined.

(** The seconds of a minute show as they should. *)
Example formatDuration_65 : formatDuration 65 = "1:05" ∧ formatTime 65 = "01:05".
Proof. split; reflexivity. Qed.

End FormatLaws.
